(** * SERVE: a shallow embedding of [src/serve.hpp]

    [Block] and [UltimateHybridSearch] are embedded as pure functions over
    [list Z].  Operations whose C++ behaviour is undefined (division by zero,
    signed overflow, an out-of-range float-to-integer conversion, a violated
    precondition of [std::clamp], a read outside the vector) do not yield a
    value here: they produce a [Fault].  [double] is IEEE binary64, taken from
    [SpecFloat] with [prec = 53] and [emax = 1024]; [size_t] is a 64-bit
    unsigned integer with its wrap-around written out; [int] is 32-bit. *)

From Stdlib Require Import ZArith List Lia Bool Sorting.Sorted Permutation.
From Stdlib Require Import Floats.SpecFloat.
Import ListNotations.
Open Scope Z_scope.

(** ** Outcomes *)

Inductive fault : Type :=
  | DivByZero            (* [a / 0] *)
  | SignedOverflow       (* [int] arithmetic out of range *)
  | FloatToIntRange      (* [(size_t)d] with [trunc d] not representable *)
  | ClampPrecondition    (* [std::clamp(v, lo, hi)] with [hi < lo] *)
  | OutOfBounds          (* element read outside [data] *)
  | OutOfFuel.           (* loop bound of the model exhausted *)

Inductive res (A : Type) : Type :=
  | Ok (a : A)
  | Fault (f : fault).
Arguments Ok {A} a.
Arguments Fault {A} f.

Definition bind {A B : Type} (m : res A) (k : A -> res B) : res B :=
  match m with
  | Ok a => k a
  | Fault f => Fault f
  end.

Notation "x <- m ;; k" := (bind m (fun x => k))
  (at level 61, m at next level, right associativity).

(** ** Machine integers *)

Definition TARGET_BLOCK_SIZE : Z := 4096.
Definition MAX_BLOCK_SIZE : Z := 8192.
Definition MERGE_THRESHOLD : Z := TARGET_BLOCK_SIZE / 2.

Definition INT_MIN : Z := - 2 ^ 31.
Definition INT_MAX : Z := 2 ^ 31 - 1.
Definition SIZE_MOD : Z := 2 ^ 64.

(** [size_t] arithmetic wraps modulo [2^64]. *)
Definition sz (z : Z) : Z := z mod SIZE_MOD.

(** [int] subtraction; overflow is undefined. *)
Definition int_sub (a b : Z) : res Z :=
  let r := a - b in
  if (INT_MIN <=? r) && (r <=? INT_MAX) then Ok r else Fault SignedOverflow.

(** [data[i]] *)
Definition at_ (d : list Z) (i : Z) : res Z :=
  if (0 <=? i) && (i <? Zlength d) then Ok (nth (Z.to_nat i) d 0)
  else Fault OutOfBounds.

(** ** [double] *)

Definition prec : Z := 53.
Definition emax : Z := 1024.
Definition double : Type := spec_float.

(** Conversion of an integer ([int] or [size_t]) to [double]. *)
Definition to_double (z : Z) : double := binary_normalize prec emax z 0 false.
Definition dadd : double -> double -> double := SFadd prec emax.
Definition dmul : double -> double -> double := SFmul prec emax.

(** [a / b] where [b] is an integer promoted to [double]. *)
Definition ddiv_int (a : double) (b : Z) : res double :=
  if b =? 0 then Fault DivByZero else Ok (SFdiv prec emax a (to_double b)).

(** [(size_t)f]: truncation toward zero, undefined when the truncated value
    is not in [0, 2^64) or [f] is not finite. *)
Definition to_size_t (f : double) : res Z :=
  match f with
  | S754_zero _ => Ok 0
  | S754_finite s m e =>
      let t := if 0 <=? e then Z.shiftl (Zpos m) e else Z.shiftr (Zpos m) (- e) in
      let t := if s then - t else t in
      if (0 <=? t) && (t <? SIZE_MOD) then Ok t else Fault FloatToIntRange
  | _ => Fault FloatToIntRange
  end.

(** [std::clamp(v, lo, hi)]; its precondition is [!(hi < lo)]. *)
Definition clamp (v lo hi : Z) : res Z :=
  if hi <? lo then Fault ClampPrecondition else Ok (Z.min (Z.max v lo) hi).

(** ** [Block::search] *)

Inductive step_out : Type :=
  | Return (b : bool)
  | Continue (low high : Z).

(** One iteration of the Stage 1 loop (interpolation). *)
Definition interp_step (d : list Z) (x low high : Z) : res step_out :=
  if high <? low then Ok (Return false) else
  dl <- at_ d low ;;
  if dl =? x then Ok (Return true) else
  dh <- at_ d high ;;
  if dh =? x then Ok (Return true) else
  num <- int_sub x dl ;;
  den <- int_sub dh dl ;;
  q <- ddiv_int (to_double num) den ;;
  let pos := dadd (to_double low) (dmul q (to_double (sz (high - low)))) in
  p <- to_size_t pos ;;
  mid <- clamp p (sz (low + 1)) (sz (high - 1)) ;;
  dm <- at_ d mid ;;
  if dm =? x then Ok (Return true)
  else if dm <? x then Ok (Continue (sz (mid + 1)) high)
  else Ok (Continue low (sz (mid - 1))).

Fixpoint interp_stage (steps : nat) (d : list Z) (x low high : Z) : res step_out :=
  match steps with
  | O => Ok (Continue low high)
  | S k =>
      r <- interp_step d x low high ;;
      match r with
      | Return b => Ok (Return b)
      | Continue l h => interp_stage k d x l h
      end
  end.

(** Stage 2: [_mm256_loadu_si256] of the 8 ints at [data + mid]. *)
Definition loadu8 (d : list Z) (mid : Z) : res (list Z) :=
  if (0 <=? mid) && (mid + 8 <=? Zlength d)
  then Ok (map (fun j => nth (Z.to_nat (mid + j)) d 0) [0; 1; 2; 3; 4; 5; 6; 7])
  else Fault OutOfBounds.

(** [_mm256_cmpgt_epi32(target_vec, vals)], lane by lane (signed). *)
Definition cmpgt_lanes (x : Z) (vals : list Z) : list bool :=
  map (fun v => v <? x) vals.

(** [_mm256_movemask_ps]: bit [i] of the result is the sign of lane [i]. *)
Fixpoint movemask (lanes : list bool) : Z :=
  match lanes with
  | [] => 0
  | b :: r => Z.lor (if b then 1 else 0) (Z.shiftl (movemask r) 1)
  end.

Fixpoint simd_stage (fuel : nat) (d : list Z) (x low high : Z) : res (Z * Z) :=
  match fuel with
  | O => Fault OutOfFuel
  | S k =>
      if 32 <? sz (high - low) then
        let mid := sz (low + sz (high - low) / 2) in
        vals <- loadu8 d mid ;;
        let mask := movemask (cmpgt_lanes x vals) in
        if mask =? 255 then simd_stage k d x (sz (mid + 8)) high
        else simd_stage k d x low (sz (mid + 8))
      else Ok (low, high)
  end.

(** Stage 3: scalar binary search. *)
Fixpoint scalar_stage (fuel : nat) (d : list Z) (x low high : Z) : res bool :=
  match fuel with
  | O => Fault OutOfFuel
  | S k =>
      if low <=? high then
        let mid := sz (low + sz (high - low) / 2) in
        dm <- at_ d mid ;;
        if dm =? x then Ok true
        else if dm <? x then scalar_stage k d x (sz (mid + 1)) high
        else scalar_stage k d x low (sz (mid - 1))
      else Ok false
  end.

(** Loop bound of the model for Stages 2 and 3. *)
Definition search_fuel (d : list Z) : nat := S (S (length d)).

(** [Block::search]; [avx2] says whether [__AVX2__] is defined. *)
Definition search (avx2 : bool) (d : list Z) (x : Z) : res bool :=
  match d with
  | [] => Ok false
  | _ :: _ =>
      r <- interp_stage 3 d x 0 (sz (Zlength d - 1)) ;;
      match r with
      | Return b => Ok b
      | Continue low high =>
          w <- (if avx2 then simd_stage (search_fuel d) d x low high
                else Ok (low, high)) ;;
          scalar_stage (search_fuel d) d x (fst w) (snd w)
      end
  end.

(** ** [Block] *)

Record Block : Type := mkBlock {
  minVal : Z;
  maxVal : Z;
  data : list Z
}.

(** [Block()]: [minVal = 0], [maxVal = 0], no elements. *)
Definition new_block : Block := mkBlock 0 0 [].

Definition contains (b : Block) (x : Z) : bool :=
  negb (match data b with [] => true | _ => false end)
  && (minVal b <=? x) && (x <=? maxVal b).

(** Index returned by [std::lower_bound] / [std::upper_bound] on a range
    partitioned by [p]: the length of the longest prefix satisfying [p]. *)
Fixpoint partition_point {A : Type} (p : A -> bool) (l : list A) : nat :=
  match l with
  | [] => O
  | a :: r => if p a then S (partition_point p r) else O
  end.

(** [std::lower_bound(begin, end, x)] on ints. *)
Definition lower_bound (l : list Z) (x : Z) : nat :=
  partition_point (fun e => e <? x) l.

(** [std::upper_bound(begin, end, x)] on ints. *)
Definition upper_bound (l : list Z) (x : Z) : nat :=
  partition_point (fun e => negb (x <? e)) l.

(** [b.minVal = b.data.front(); b.maxVal = b.data.back();] *)
Definition with_bounds (d : list Z) : Block := mkBlock (hd 0 d) (last d 0) d.

(** [Block::insert] *)
Definition block_insert (b : Block) (x : Z) : Block :=
  let i := lower_bound (data b) x in
  match nth_error (data b) i with
  | Some y => if y =? x then b
              else with_bounds (firstn i (data b) ++ x :: skipn i (data b))
  | None => with_bounds (firstn i (data b) ++ x :: skipn i (data b))
  end.

(** ** [UltimateHybridSearch] *)

(** The engine state is the vector [blocks]. *)
Definition Engine : Type := list Block.

(** [blocks[i]] *)
Definition block_at (bs : Engine) (i : Z) : res Block :=
  if (0 <=? i) && (i <? Zlength bs) then Ok (nth (Z.to_nat i) bs new_block)
  else Fault OutOfBounds.

Fixpoint find_loop (fuel : nat) (bs : Engine) (x left right result : Z) : res Z :=
  match fuel with
  | O => Fault OutOfFuel
  | S k =>
      if left <=? right then
        let mid := left + (right - left) / 2 in
        b <- block_at bs mid ;;
        if maxVal b <? x then find_loop k bs x (mid + 1) right result
        else find_loop k bs x left (mid - 1) (if contains b x then mid else result)
      else Ok result
  end.

(** [findBlockContaining] *)
Definition findBlockContaining (bs : Engine) (x : Z) : res Z :=
  match bs with
  | [] => Ok (-1)
  | _ :: _ => find_loop (S (length bs)) bs x 0 (Zlength bs - 1) (-1)
  end.

(** [splitBlockIfNeeded] *)
Definition splitBlockIfNeeded (bs : Engine) (idx : Z) : Engine :=
  if (idx <? 0) || (Zlength bs <=? idx) then bs else
  let b := nth (Z.to_nat idx) bs new_block in
  if Zlength (data b) <=? MAX_BLOCK_SIZE then bs else
  let mid := Zlength (data b) / 2 in
  let right := with_bounds (skipn (Z.to_nat mid) (data b)) in
  let left := with_bounds (firstn (Z.to_nat mid) (data b)) in
  firstn (Z.to_nat idx) bs ++ left :: right :: skipn (S (Z.to_nat idx)) bs.

(** [std::sort] on ints: the ascending permutation (insertion sort). *)
Fixpoint insert_sorted (x : Z) (l : list Z) : list Z :=
  match l with
  | [] => [x]
  | y :: r => if y <? x then y :: insert_sorted x r else x :: l
  end.

Fixpoint sort (l : list Z) : list Z :=
  match l with
  | [] => []
  | x :: r => insert_sorted x (sort r)
  end.

(** [data.erase(std::unique(data.begin(), data.end()), data.end())]:
    drops each element equal to its predecessor. *)
Fixpoint unique_from (prev : Z) (l : list Z) : list Z :=
  match l with
  | [] => []
  | y :: r => if y =? prev then unique_from prev r else y :: unique_from y r
  end.

Definition unique (l : list Z) : list Z :=
  match l with
  | [] => []
  | y :: r => y :: unique_from y r
  end.

(** The [for (i = 0; i < data.size(); i += TARGET_BLOCK_SIZE)] loop. *)
Fixpoint build_loop (fuel : nat) (d : list Z) (i : Z) : res Engine :=
  match fuel with
  | O => Fault OutOfFuel
  | S k =>
      if i <? Zlength d then
        let e := Z.min (i + TARGET_BLOCK_SIZE) (Zlength d) in
        let b := with_bounds (firstn (Z.to_nat (e - i)) (skipn (Z.to_nat i) d)) in
        rest <- build_loop k d (i + TARGET_BLOCK_SIZE) ;;
        Ok (b :: rest)
      else Ok []
  end.

(** [build(data)]: returns the caller's buffer after the call and the new
    [blocks] (the previous blocks are cleared). *)
Definition build (buf : list Z) : res (list Z * Engine) :=
  match buf with
  | [] => Ok ([], [])
  | _ :: _ =>
      let d := unique (sort buf) in
      bs <- build_loop (S (length d)) d 0 ;;
      Ok (d, bs)
  end.

(** [query] *)
Definition query (avx2 : bool) (bs : Engine) (x : Z) : res bool :=
  idx <- findBlockContaining bs x ;;
  if 0 <=? idx then
    b <- block_at bs idx ;;
    search avx2 (data b) x
  else Ok false.

(** [std::upper_bound(blocks, x, [](v, b){ return v < b.minVal; })] *)
Definition upper_bound_min (bs : Engine) (x : Z) : nat :=
  partition_point (fun b => negb (x <? minVal b)) bs.

(** [insert] *)
Definition insert (bs : Engine) (x : Z) : Engine :=
  match bs with
  | [] => [block_insert new_block x]
  | _ :: _ =>
      let k := upper_bound_min bs x in
      let idx := match k with O => O | S j => j end in
      let bs' := firstn idx bs ++ block_insert (nth idx bs new_block) x :: skipn (S idx) bs in
      splitBlockIfNeeded bs' (Z.of_nat idx)
  end.

(** [std::lower_bound(blocks, low, [](b, v){ return b.maxVal < v; })] *)
Definition lower_bound_max (bs : Engine) (low : Z) : nat :=
  partition_point (fun b => maxVal b <? low) bs.

Fixpoint range_scan (bs : Engine) (low high : Z) : list Z :=
  match bs with
  | [] => []
  | b :: r =>
      if minVal b <=? high then
        let tail := skipn (lower_bound (data b) low) (data b) in
        firstn (upper_bound tail high) tail ++ range_scan r low high
      else []
  end.

(** [rangeQuery] *)
Definition rangeQuery (bs : Engine) (low high : Z) : list Z :=
  range_scan (skipn (lower_bound_max bs low) bs) low high.

(** [getTotalElements] *)
Definition getTotalElements (bs : Engine) : Z :=
  fold_left (fun t b => t + Zlength (data b)) bs 0.

(** [Block::remove]: returns whether [x] was found, and the block after
    the call.  When the last element goes, [minVal]/[maxVal] keep their old
    values. *)
Definition block_remove (b : Block) (x : Z) : bool * Block :=
  let i := lower_bound (data b) x in
  match nth_error (data b) i with
  | Some y =>
      if y =? x then
        match firstn i (data b) ++ skipn (S i) (data b) with
        | [] => (true, mkBlock (minVal b) (maxVal b) [])
        | d => (true, with_bounds d)
        end
      else (false, b)
  | None => (false, b)
  end.

(** [mergeBlocksIfNeeded] (not called by the other operations).  The two
    sizes are added as [int]s; with at most [MAX_BLOCK_SIZE] elements per
    block the sum stays far from [INT_MAX].  [data.front()] on an empty
    merged vector is undefined. *)
Definition mergeBlocksIfNeeded (bs : Engine) (idx : Z) : res Engine :=
  if (idx <? 0) || (Zlength bs - 1 <=? idx) then Ok bs else
  let b1 := nth (Z.to_nat idx) bs new_block in
  let b2 := nth (Z.to_nat (idx + 1)) bs new_block in
  if Zlength (data b1) + Zlength (data b2) <? TARGET_BLOCK_SIZE then
    match data b1 ++ data b2 with
    | [] => Fault OutOfBounds
    | d => Ok (firstn (Z.to_nat idx) bs ++ with_bounds d :: skipn (Z.to_nat (idx + 2)) bs)
    end
  else Ok bs.

(** ** Predicates used by the statements *)

(** [std::vector<int>::max_size()] on a 64-bit target. *)
Definition MAX_VECTOR_SIZE : Z := (2 ^ 63 - 1) / 4.

(** A block as [build], [insert] and the split leave it. *)
Definition block_ok (b : Block) : Prop :=
  data b <> [] /\ minVal b = hd 0 (data b) /\ maxVal b = last (data b) 0
  /\ Zlength (data b) <= MAX_BLOCK_SIZE.

(** All blocks well formed, and their contents, read in block order,
    strictly ascending. *)
Definition engine_ok (bs : Engine) : Prop :=
  Forall block_ok bs /\ StronglySorted Z.lt (concat (map data bs)).

(** Engines obtainable from a [build] followed by [insert]s. *)
Inductive reachable : Engine -> Prop :=
  | reach_build : forall buf d bs, build buf = Ok (d, bs) -> reachable bs
  | reach_insert : forall bs x, reachable bs -> reachable (insert bs x).

(** [x] is stored in some block. *)
Definition present (bs : Engine) (x : Z) : Prop :=
  exists b, In b bs /\ In x (data b).

(** [x] occurs at an index of the window [[l, h]]. *)
Definition inw (d : list Z) (x l h : Z) : Prop :=
  exists i, l <= i <= h /\ nth (Z.to_nat i) d 0 = x.

(** Strictly ascending, by index. *)
Definition sorted_at (d : list Z) : Prop :=
  forall i j, 0 <= i < j -> j < Zlength d ->
    nth (Z.to_nat i) d 0 < nth (Z.to_nat j) d 0.

(** ** Concrete runs *)

Fixpoint iota_Z (start : Z) (n : nat) : list Z :=
  match n with
  | O => []
  | S k => start :: iota_Z (start + 1) k
  end.

Definition seq_0_19999 : list Z := iota_Z 0 (Z.to_nat 20000).

(** The engine built from [0..4096]: blocks [[0..4095]] and [[4096]]. *)
Definition engine_0_4096 : Engine :=
  match build (iota_Z 0 (Z.to_nat 4097)) with
  | Ok (_, bs) => bs
  | Fault _ => []
  end.

(** The engine built from [[5, 3, 1]]. *)
Definition engine_1_3_5 : Engine := [mkBlock 1 5 [1; 3; 5]].

Definition block_1_3_5 : Block := mkBlock 1 5 [1; 3; 5].

Definition engine_1_3_5_9 : Engine := [mkBlock 1 3 [1; 3]; mkBlock 5 9 [5; 9]].

(** The checks of the [0..19999] scenario on a [build] outcome. *)
Definition check_20000 (r : res (list Z * Engine)) : bool :=
  match r with
  | Ok (d, bs) =>
      (if list_eq_dec Z.eq_dec d seq_0_19999 then true else false)
      && (if list_eq_dec Z.eq_dec (map (fun b => Zlength (data b)) bs)
                           [4096; 4096; 4096; 4096; 3616] then true else false)
      && (match query true bs 10000 with Ok true => true | _ => false end)
      && (match query false bs 10000 with Ok true => true | _ => false end)
      && (if list_eq_dec Z.eq_dec (rangeQuery bs 4090 4100)
                           [4090; 4091; 4092; 4093; 4094; 4095; 4096; 4097; 4098; 4099; 4100]
          then true else false)
  | Fault _ => false
  end.

(** * Theorems *)

(** C3 (concrete scenario [5,3,3,9,1]): [build] gives the single block
    [[1,3,5,9]], [query(3)] is true and [rangeQuery(2,9)] is [[3,5,9]], but
    [query(4)] reaches [std::clamp(1, 3, 2)], whose precondition [lo <= hi]
    is violated: undefined behaviour instead of [false]. *)
Theorem C3_scenario_query4_clamp_ub : forall avx2 : bool,
  build [5; 3; 3; 9; 1] = Ok ([1; 3; 5; 9], [mkBlock 1 9 [1; 3; 5; 9]])
  /\ query avx2 [mkBlock 1 9 [1; 3; 5; 9]] 3 = Ok true
  /\ query avx2 [mkBlock 1 9 [1; 3; 5; 9]] 4 = Fault ClampPrecondition
  /\ rangeQuery [mkBlock 1 9 [1; 3; 5; 9]] 2 9 = [3; 5; 9].
Proof. intros []; vm_compute; repeat split. Qed.

(** C4 (search safety): [Block::search] is not safe on small blocks.  On
    the single-element block [[1]] with [x = 2] the zero-width window
    [low == high == 0] reaches the division by [data[high] - data[low] = 0];
    on [[1,3]] with [x = 2] the width-one window calls
    [std::clamp(0, 1, 0)] with [lo > hi]. *)
Theorem C4_search_small_block_ub : forall avx2 : bool,
  search avx2 [1] 2 = Fault DivByZero
  /\ search avx2 [1; 3] 2 = Fault ClampPrecondition.
Proof. intros []; vm_compute; split; reflexivity. Qed.

(** C1 (round-trip membership): after [build([1,3])], [query(2)] reaches
    the [std::clamp] precondition violation rather than returning [false];
    after [build([INT_MIN, 0, INT_MAX])], [query(0)] overflows [int] in
    [x - data[low]] rather than returning [true]. *)
Theorem C1_query_after_build_ub : forall avx2 : bool,
  (bs <- build [1; 3] ;; query avx2 (snd bs) 2) = Fault ClampPrecondition
  /\ (bs <- build [INT_MIN; 0; INT_MAX] ;; query avx2 (snd bs) 0)
     = Fault SignedOverflow.
Proof. intros []; vm_compute; split; reflexivity. Qed.

(** C5 (insert then query): from [build([INT_MIN, INT_MAX])], [insert(0)]
    stores [0] in the block [[INT_MIN, 0, INT_MAX]], and [query(0)] then
    overflows [int] in the interpolation stage instead of returning
    [true]. *)
Theorem C5_insert_then_query_overflow : forall avx2 : bool,
  (bs <- build [INT_MIN; INT_MAX] ;;
   let bs' := insert (snd bs) 0 in
   Ok (map data bs', query avx2 bs' 0))
  = Ok ([[INT_MIN; 0; INT_MAX]], Fault SignedOverflow).
Proof. intros []; vm_compute; reflexivity. Qed.

(** C9 (empty engine): an empty input builds no blocks; on an engine with
    no blocks [query(x)] is [false], [rangeQuery] is empty and [insert(x)]
    creates the single block [[x]]; none of them faults. *)
Theorem C9_empty_engine : forall avx2 : bool,
  build [] = Ok ([], [])
  /\ (forall x, query avx2 [] x = Ok false)
  /\ (forall low high, rangeQuery [] low high = [])
  /\ (forall x, insert [] x = [mkBlock x x [x]]).
Proof. intros avx2; repeat split. Qed.

(** ** Machine arithmetic and element access *)

Ltac zlia :=
  unfold SIZE_MOD, MAX_VECTOR_SIZE, MAX_BLOCK_SIZE, TARGET_BLOCK_SIZE,
    INT_MIN, INT_MAX in *;
  Z.div_mod_to_equations; lia.

Lemma sz_id : forall z, 0 <= z < SIZE_MOD -> sz z = z.
Proof. intros z Hz. unfold sz. apply Z.mod_small. exact Hz. Qed.

Lemma at_ok : forall d i, 0 <= i < Zlength d -> at_ d i = Ok (nth (Z.to_nat i) d 0).
Proof.
  intros d i Hi. unfold at_.
  replace ((0 <=? i) && (i <? Zlength d)) with true; [reflexivity|].
  symmetry. apply andb_true_intro. split; [apply Z.leb_le | apply Z.ltb_lt]; lia.
Qed.

Lemma at_oob : forall d i, Zlength d <= i -> at_ d i = Fault OutOfBounds.
Proof.
  intros d i Hi. unfold at_.
  replace (i <? Zlength d) with false by (symmetry; apply Z.ltb_ge; lia).
  rewrite andb_false_r. reflexivity.
Qed.

Lemma sorted_at_le : forall d i j, sorted_at d -> 0 <= i <= j -> j < Zlength d ->
  nth (Z.to_nat i) d 0 <= nth (Z.to_nat j) d 0.
Proof.
  intros d i j Hs Hij Hj. destruct (Z.eq_dec i j) as [->|Hne]; [lia|].
  apply Z.lt_le_incl. apply Hs; lia.
Qed.

Lemma nth_In_Z : forall d i, 0 <= i < Zlength d -> In (nth (Z.to_nat i) d 0) d.
Proof.
  intros d i Hi. apply nth_In. rewrite Zlength_correct in Hi. lia.
Qed.

Lemma StronglySorted_sorted_at : forall d, StronglySorted Z.lt d -> sorted_at d.
Proof.
  induction d as [|a r IH]; intros Hs i j Hij Hj.
  - rewrite Zlength_nil in Hj. lia.
  - apply StronglySorted_inv in Hs as [Hr Ha].
    rewrite Zlength_cons in Hj.
    destruct (Z.eq_dec i 0) as [->|Hi].
    + replace (Z.to_nat j) with (S (Z.to_nat (j - 1))) by lia. simpl.
      eapply Forall_forall; [exact Ha|]. apply nth_In_Z. lia.
    + replace (Z.to_nat i) with (S (Z.to_nat (i - 1))) by lia.
      replace (Z.to_nat j) with (S (Z.to_nat (j - 1))) by lia. simpl.
      apply (IH Hr); lia.
Qed.

Lemma inw_dec : forall d x l h, {inw d x l h} + {~ inw d x l h}.
Proof.
  intros d x.
  assert (Hn : forall n l h, Z.to_nat (h - l + 1) = n -> {inw d x l h} + {~ inw d x l h}).
  { induction n as [|n IH]; intros l h Hn.
    - right. intros [i [Hi _]]. lia.
    - destruct (Z.eq_dec (nth (Z.to_nat l) d 0) x) as [He|He].
      + left. exists l. split; [lia | exact He].
      + destruct (IH (l + 1) h ltac:(lia)) as [Hw|Hw].
        * left. destruct Hw as [i [Hi Hx]]. exists i. split; [lia | exact Hx].
        * right. intros [i [Hi Hx]].
          destruct (Z.eq_dec i l) as [->|Hil]; [contradiction|].
          apply Hw. exists i. split; [lia | exact Hx]. }
  intros l h. exact (Hn _ l h eq_refl).
Qed.

(** ** Stage 1 keeps a valid window *)

Lemma interp_step_window : forall d x l h l' h',
  0 <= l <= h -> h < Zlength d -> Zlength d < SIZE_MOD ->
  interp_step d x l h = Ok (Continue l' h') ->
  0 <= l' <= h' /\ h' < Zlength d.
Proof.
  intros d x l h l' h' Hlh Hh Hd H. unfold interp_step in H.
  replace (h <? l) with false in H by (symmetry; apply Z.ltb_ge; lia).
  rewrite (at_ok d l) in H by lia. cbn [bind] in H.
  destruct (nth (Z.to_nat l) d 0 =? x); [discriminate|].
  rewrite (at_ok d h) in H by lia. cbn [bind] in H.
  destruct (nth (Z.to_nat h) d 0 =? x); [discriminate|].
  destruct (int_sub x _) as [num|]; cbn [bind] in H; [|discriminate].
  destruct (int_sub (nth (Z.to_nat h) d 0) (nth (Z.to_nat l) d 0)) as [den|] eqn:Eden;
    cbn [bind] in H; [|discriminate].
  assert (Hlt : l < h).
  { destruct (Z.eq_dec l h) as [->|]; [|lia].
    unfold int_sub in Eden. rewrite Z.sub_diag in Eden. cbn in Eden.
    injection Eden as <-. discriminate H. }
  destruct (ddiv_int _ den); cbn [bind] in H; [|discriminate].
  destruct (to_size_t _) as [p|]; cbn [bind] in H; [|discriminate].
  rewrite (sz_id (l + 1)), (sz_id (h - 1)) in H by zlia.
  unfold clamp in H. destruct (h - 1 <? l + 1) eqn:Ec; [discriminate|].
  apply Z.ltb_ge in Ec. cbn [bind] in H.
  set (mid := Z.min (Z.max p (l + 1)) (h - 1)) in H.
  assert (Hm : l + 1 <= mid <= h - 1) by (subst mid; lia).
  destruct (at_ d mid) as [dm|]; cbn [bind] in H; [|discriminate].
  destruct (dm =? x); [discriminate|].
  destruct (dm <? x); injection H as <- <-.
  - rewrite sz_id by zlia. lia.
  - rewrite sz_id by zlia. lia.
Qed.

Lemma interp_stage_window : forall n d x l h l' h',
  0 <= l <= h -> h < Zlength d -> Zlength d < SIZE_MOD ->
  interp_stage n d x l h = Ok (Continue l' h') ->
  0 <= l' <= h' /\ h' < Zlength d.
Proof.
  induction n as [|n IH]; intros d x l h l' h' Hlh Hh Hd H; simpl in H.
  - injection H as <- <-. lia.
  - destruct (interp_step d x l h) as [[b|l1 h1]|] eqn:E; cbn [bind] in H;
      try discriminate.
    destruct (interp_step_window d x l h l1 h1) as [H1 H2]; try assumption.
    exact (IH d x l1 h1 l' h' H1 H2 Hd H).
Qed.

(** ** Stage 3 *)

Lemma scalar_stage_S : forall k d x l h,
  scalar_stage (S k) d x l h =
  if l <=? h then
    (dm <- at_ d (sz (l + sz (h - l) / 2)) ;;
     if dm =? x then Ok true
     else if dm <? x then scalar_stage k d x (sz (sz (l + sz (h - l) / 2) + 1)) h
     else scalar_stage k d x l (sz (sz (l + sz (h - l) / 2) - 1)))
  else Ok false.
Proof. reflexivity. Qed.

(** On a window [[l, h]] of a sorted vector the binary search answers
    membership, except that a target below [data[0]] with [l = 0] drives
    [high] to [mid - 1] with [mid = 0], which wraps, and the next probe
    reads outside the vector. *)
Lemma scalar_spec : forall d x, sorted_at d -> Zlength d <= MAX_VECTOR_SIZE ->
  forall fuel l h, 0 <= l -> l <= h + 1 -> 0 <= h < Zlength d ->
  h - l + 3 <= Z.of_nat fuel ->
  (inw d x l h -> scalar_stage fuel d x l h = Ok true) /\
  (~ inw d x l h -> l = 0 -> x < nth 0 d 0 ->
     scalar_stage fuel d x l h = Fault OutOfBounds) /\
  (~ inw d x l h -> (l = 0 -> nth 0 d 0 <= x) ->
     scalar_stage fuel d x l h = Ok false).
Proof.
  intros d x Hs Hd. induction fuel as [|k IH]; intros l h Hl Hlh Hh Hf.
  { lia. }
  rewrite scalar_stage_S.
  destruct (Z.leb_spec l h) as [Hle|Hgt].
  2:{ split; [|split].
      - intros [i [Hi _]]. lia.
      - intros _ ->. lia.
      - reflexivity. }
  rewrite (sz_id (h - l)) by zlia.
  rewrite (sz_id (l + (h - l) / 2)) by zlia.
  set (m := l + (h - l) / 2).
  assert (Hm : l <= m <= h) by (subst m; zlia).
  rewrite (at_ok d m) by lia. cbn [bind].
  destruct (Z.eqb_spec (nth (Z.to_nat m) d 0) x) as [Heq|Hne].
  { split; [|split]; intros Hw; try reflexivity;
      exfalso; apply Hw; exists m; (split; [lia | exact Heq]). }
  destruct (Z.ltb_spec (nth (Z.to_nat m) d 0) x) as [Hlt|Hge].
  - (* data[mid] < x: low = mid + 1 *)
    rewrite (sz_id (m + 1)) by zlia.
    assert (Hiff : inw d x l h <-> inw d x (m + 1) h).
    { split; intros [i [Hi Hx]].
      - exists i. split; [|exact Hx].
        destruct (Z.le_gt_cases i m) as [Him|Him]; [|lia].
        pose proof (sorted_at_le d i m Hs ltac:(lia) ltac:(lia)). lia.
      - exists i. split; [lia | exact Hx]. }
    destruct (IH (m + 1) h ltac:(lia) ltac:(lia) Hh ltac:(lia)) as [IH1 [_ IH3]].
    split; [|split].
    + intros Hw. apply IH1, Hiff, Hw.
    + intros _ -> Hx0.
      pose proof (sorted_at_le d 0 m Hs ltac:(lia) ltac:(lia)). simpl in *. lia.
    + intros Hw _. apply IH3; [rewrite <- Hiff; exact Hw | lia].
  - (* x < data[mid]: high = mid - 1 *)
    assert (Hgt : x < nth (Z.to_nat m) d 0) by lia.
    assert (Hiff : inw d x l h <-> inw d x l (m - 1)).
    { split; intros [i [Hi Hx]].
      - exists i. split; [|exact Hx].
        destruct (Z.le_gt_cases m i) as [Him|Him]; [|lia].
        pose proof (sorted_at_le d m i Hs ltac:(lia) ltac:(lia)). lia.
      - exists i. split; [lia | exact Hx]. }
    destruct (Z.eq_dec m 0) as [Hm0|Hm0].
    + (* mid = 0: [mid - 1] wraps to [SIZE_MOD - 1] *)
      assert (Hl0 : l = 0) by lia.
      assert (Hx0 : x < nth 0 d 0) by (rewrite Hm0 in Hgt; exact Hgt).
      destruct k as [|k]; [lia|].
      rewrite Hm0, scalar_stage_S.
      replace (sz (0 - 1)) with (SIZE_MOD - 1) by reflexivity.
      replace (l <=? SIZE_MOD - 1) with true
        by (symmetry; apply Z.leb_le; zlia).
      replace (sz (l + sz (SIZE_MOD - 1 - l) / 2)) with (2 ^ 63 - 1)
        by (rewrite Hl0; reflexivity).
      rewrite at_oob by zlia. cbn [bind].
      split; [|split].
      * intros [i [Hi Hx]].
        pose proof (sorted_at_le d 0 i Hs ltac:(lia) ltac:(lia)). simpl in *. lia.
      * reflexivity.
      * intros _ H0. specialize (H0 Hl0). lia.
    + rewrite (sz_id (m - 1)) by zlia.
      destruct (IH l (m - 1) Hl ltac:(lia) ltac:(lia) ltac:(lia)) as [IH1 [IH2 IH3]].
      split; [|split].
      * intros Hw. apply IH1, Hiff, Hw.
      * intros Hw Hl0 Hx0. apply IH2; [rewrite <- Hiff; exact Hw | exact Hl0 | exact Hx0].
      * intros Hw H0. apply IH3; [rewrite <- Hiff; exact Hw | exact H0].
Qed.

(** ** Stage 2 *)

Lemma simd_stage_S : forall k d x l h,
  simd_stage (S k) d x l h =
  if 32 <? sz (h - l) then
    (vals <- loadu8 d (sz (l + sz (h - l) / 2)) ;;
     if movemask (cmpgt_lanes x vals) =? 255
     then simd_stage k d x (sz (sz (l + sz (h - l) / 2) + 8)) h
     else simd_stage k d x l (sz (sz (l + sz (h - l) / 2) + 8)))
  else Ok (l, h).
Proof. reflexivity. Qed.

Lemma movemask8 : forall b0 b1 b2 b3 b4 b5 b6 b7 : bool,
  (movemask [b0; b1; b2; b3; b4; b5; b6; b7] =? 255)
  = b0 && b1 && b2 && b3 && b4 && b5 && b6 && b7.
Proof. intros [] [] [] [] [] [] [] []; reflexivity. Qed.

(** On a sorted vector the 8-lane mask is full exactly when the last lane,
    [data[mid + 7]], is below the target. *)
Lemma mask_full_iff : forall d x m, sorted_at d -> 0 <= m -> m + 8 <= Zlength d ->
  (movemask (cmpgt_lanes x (map (fun j => nth (Z.to_nat (m + j)) d 0)
                                 [0; 1; 2; 3; 4; 5; 6; 7])) =? 255)
  = (nth (Z.to_nat (m + 7)) d 0 <? x).
Proof.
  intros d x m Hs Hm Hd. unfold cmpgt_lanes. cbn [map]. rewrite movemask8.
  destruct (Z.ltb_spec (nth (Z.to_nat (m + 7)) d 0) x) as [Hlt|Hge].
  - assert (Hj : forall j, 0 <= j <= 7 -> (nth (Z.to_nat (m + j)) d 0 <? x) = true).
    { intros j Hj. apply Z.ltb_lt.
      pose proof (sorted_at_le d (m + j) (m + 7) Hs ltac:(lia) ltac:(lia)). lia. }
    rewrite !Hj by lia. reflexivity.
  - replace (nth (Z.to_nat (m + 7)) d 0 <? x) with false
      by (symmetry; apply Z.ltb_ge; exact Hge).
    rewrite andb_false_r. reflexivity.
Qed.

(** The vector loop keeps a valid window, never reads outside the vector,
    keeps exactly the occurrences of the target, and leaves [low] at [0]
    when the target is below [data[0]]. *)
Lemma simd_spec : forall d x, sorted_at d -> Zlength d < SIZE_MOD ->
  forall fuel l h, 0 <= l <= h -> h < Zlength d -> h - l + 1 <= Z.of_nat fuel ->
  exists l' h', simd_stage fuel d x l h = Ok (l', h')
    /\ l <= l' <= h' /\ h' <= h
    /\ (inw d x l h <-> inw d x l' h')
    /\ (l = 0 -> x < nth 0 d 0 -> l' = 0).
Proof.
  intros d x Hs Hd. induction fuel as [|k IH]; intros l h Hlh Hh Hf.
  { lia. }
  rewrite simd_stage_S. rewrite (sz_id (h - l)) by zlia.
  destruct (Z.ltb_spec 32 (h - l)) as [Hw|Hw].
  2:{ exists l, h. split; [reflexivity|]. split; [lia|]. split; [lia|].
      split; [reflexivity | intros; exact H]. }
  rewrite (sz_id (l + (h - l) / 2)) by zlia.
  set (m := l + (h - l) / 2).
  assert (Hm : l <= m /\ m + 8 <= h - 1) by (subst m; zlia).
  unfold loadu8.
  replace ((0 <=? m) && (m + 8 <=? Zlength d)) with true
    by (symmetry; apply andb_true_intro; split; [apply Z.leb_le | apply Z.leb_le]; lia).
  cbn [bind]. rewrite (mask_full_iff d x m Hs) by lia.
  rewrite (sz_id (m + 8)) by zlia.
  destruct (Z.ltb_spec (nth (Z.to_nat (m + 7)) d 0) x) as [Hlt|Hge].
  - (* all lanes below x: low = mid + 8 *)
    destruct (IH (m + 8) h ltac:(lia) Hh ltac:(lia))
      as [l' [h' [Hrun [Hl' [Hh' [Hiff _]]]]]].
    exists l', h'. split; [exact Hrun|]. split; [lia|]. split; [exact Hh'|].
    split.
    + rewrite <- Hiff. split; intros [i [Hi Hx]].
      * exists i. split; [|exact Hx].
        destruct (Z.le_gt_cases i (m + 7)) as [Him|Him]; [|lia].
        pose proof (sorted_at_le d i (m + 7) Hs ltac:(lia) ltac:(lia)). lia.
      * exists i. split; [lia | exact Hx].
    + intros Hl0 Hx0.
      pose proof (sorted_at_le d 0 (m + 7) Hs ltac:(lia) ltac:(lia)). simpl in *. lia.
  - (* some lane not below x: high = mid + 8 *)
    destruct (IH l (m + 8) ltac:(lia) ltac:(lia) ltac:(lia))
      as [l' [h' [Hrun [Hl' [Hh' [Hiff H0]]]]]].
    exists l', h'. split; [exact Hrun|]. split; [lia|]. split; [lia|].
    split; [|exact H0].
    rewrite <- Hiff. split; intros [i [Hi Hx]].
    + exists i. split; [|exact Hx].
      destruct (Z.le_gt_cases i (m + 8)) as [Him|Him]; [lia|].
      pose proof (Hs (m + 8) i ltac:(lia) ltac:(lia)).
      pose proof (Hs (m + 7) (m + 8) ltac:(lia) ltac:(lia)). lia.
    + exists i. split; [lia | exact Hx].
Qed.

(** C7 (vector stage is transparent): for every non-empty block whose
    elements are strictly ascending (the [Block] invariant) and whose size
    is within [std::vector<int>::max_size()], [Block::search] compiled with
    the AVX2 loop and compiled without it give the same outcome on every
    target [x]. *)
Theorem C7_search_avx2_equiv_scalar : forall (d : list Z) (x : Z),
  d <> [] -> StronglySorted Z.lt d -> Zlength d <= MAX_VECTOR_SIZE ->
  search true d x = search false d x.
Proof.
  intros d x Hne Hss Hd.
  pose proof (StronglySorted_sorted_at d Hss) as Hs.
  assert (Hpos : 0 < Zlength d).
  { destruct d as [|a r]; [contradiction|]. simpl length.
    rewrite Zlength_correct; simpl length; lia. }
  destruct d as [|a r] eqn:Ed; [contradiction|]. rewrite <- Ed in *.
  unfold search. rewrite Ed. rewrite <- Ed.
  destruct (interp_stage 3 d x 0 (sz (Zlength d - 1))) as [[b|l h]|f] eqn:E1;
    cbn [bind]; try reflexivity.
  rewrite (sz_id (Zlength d - 1)) in E1 by zlia.
  destruct (interp_stage_window 3 d x 0 (Zlength d - 1) l h ltac:(lia) ltac:(lia)
              ltac:(zlia) E1) as [Hlh Hh].
  assert (Hfuel : Z.of_nat (search_fuel d) = Zlength d + 2).
  { unfold search_fuel. rewrite Zlength_correct. lia. }
  destruct (simd_spec d x Hs ltac:(zlia) (search_fuel d) l h Hlh Hh ltac:(lia))
    as [l' [h' [Hrun [Hl' [Hh' [Hiff H0]]]]]].
  rewrite Hrun. cbn [bind fst snd].
  pose proof (scalar_spec d x Hs Hd (search_fuel d) l h ltac:(lia) ltac:(lia)
                ltac:(lia) ltac:(lia)) as [A1 [A2 A3]].
  pose proof (scalar_spec d x Hs Hd (search_fuel d) l' h' ltac:(lia) ltac:(lia)
                ltac:(lia) ltac:(lia)) as [B1 [B2 B3]].
  destruct (inw_dec d x l h) as [Hw|Hw].
  - rewrite A1, B1; [reflexivity | apply Hiff, Hw | exact Hw].
  - assert (Hw' : ~ inw d x l' h') by (rewrite <- Hiff; exact Hw).
    destruct (Z.eq_dec l 0) as [Hl0|Hl0];
      [destruct (Z_lt_le_dec x (nth 0 d 0)) as [Hx0|Hx0]|].
    + rewrite A2, B2; auto.
    + rewrite A3, B3; auto; intros; lia.
    + rewrite A3, B3; auto; intros; lia.
Qed.

(** ** [std::sort] and [std::unique] *)

Lemma insert_sorted_perm : forall x l, Permutation (x :: l) (insert_sorted x l).
Proof.
  intros x l. induction l as [|a r IH]; simpl; [reflexivity|].
  destruct (a <? x); [|reflexivity].
  transitivity (a :: x :: r); [apply perm_swap | apply perm_skip, IH].
Qed.

Lemma sort_perm : forall l, Permutation l (sort l).
Proof.
  induction l as [|x r IH]; simpl; [reflexivity|].
  transitivity (x :: sort r); [apply perm_skip, IH | apply insert_sorted_perm].
Qed.

Lemma insert_sorted_sorted : forall x l,
  StronglySorted Z.le l -> StronglySorted Z.le (insert_sorted x l).
Proof.
  intros x l. induction l as [|a r IH]; intros Hs; simpl.
  - repeat constructor.
  - apply StronglySorted_inv in Hs as [Hr Ha].
    destruct (Z.ltb_spec a x) as [Hlt|Hge].
    + constructor; [apply IH, Hr|].
      apply Forall_forall. intros y Hy.
      apply (Permutation_in _ (Permutation_sym (insert_sorted_perm x r))) in Hy.
      destruct Hy as [<-|Hy]; [lia|]. eapply Forall_forall; eauto.
    + constructor; [constructor; assumption|].
      constructor; [lia|]. apply Forall_forall. intros y Hy.
      pose proof (proj1 (Forall_forall _ _) Ha y Hy). lia.
Qed.

Lemma sort_sorted : forall l, StronglySorted Z.le (sort l).
Proof.
  induction l as [|x r IH]; simpl; [constructor|]. apply insert_sorted_sorted, IH.
Qed.

Lemma unique_from_spec : forall l prev, StronglySorted Z.le (prev :: l) ->
  StronglySorted Z.lt (prev :: unique_from prev l)
  /\ (forall y, In y (prev :: unique_from prev l) <-> In y (prev :: l)).
Proof.
  induction l as [|y r IH]; intros prev Hs; simpl.
  - split; [repeat constructor | tauto].
  - apply StronglySorted_inv in Hs as [Hyr Hp].
    inversion Hp as [|? ? Hpy Hpr]; subst.
    destruct (Z.eqb_spec y prev) as [->|Hne].
    + destruct (IH prev Hyr) as [IH1 IH2].
      split; [exact IH1|]. intros z. specialize (IH2 z). simpl in *. tauto.
    + destruct (IH y Hyr) as [IH1 IH2].
      split.
      * constructor; [exact IH1|]. apply Forall_forall. intros z Hz.
        apply IH2 in Hz. destruct Hz as [<-|Hz]; [lia|].
        apply StronglySorted_inv in Hyr as [_ Hyr].
        pose proof (proj1 (Forall_forall _ _) Hyr z Hz). lia.
      * intros z. specialize (IH2 z). simpl in *. tauto.
Qed.

Lemma unique_sort_spec : forall l,
  StronglySorted Z.lt (unique (sort l)) /\ (forall y, In y (unique (sort l)) <-> In y l).
Proof.
  intros l. pose proof (sort_sorted l) as Hs. pose proof (sort_perm l) as Hp.
  destruct (sort l) as [|a r] eqn:E; cbn [unique].
  - split; [constructor|]. intros y. split; [simpl; tauto|].
    intros Hy. apply (Permutation_in _ Hp) in Hy. exact Hy.
  - destruct (unique_from_spec r a Hs) as [H1 H2]. split; [exact H1|].
    intros y. rewrite H2. split; intros Hy.
    + apply (Permutation_in _ (Permutation_sym Hp)), Hy.
    + apply (Permutation_in _ Hp), Hy.
Qed.

(** ** The [build] loop *)

Lemma build_loop_spec : forall fuel d i, 0 <= i -> Z.max 0 (Zlength d - i) < Z.of_nat fuel ->
  exists bs, build_loop fuel d i = Ok bs
    /\ concat (map data bs) = skipn (Z.to_nat i) d
    /\ Forall (fun b => b = with_bounds (data b) /\ data b <> []
                        /\ Zlength (data b) <= TARGET_BLOCK_SIZE) bs
    /\ (forall j, (S j < length bs)%nat ->
          Zlength (data (nth j bs new_block)) = TARGET_BLOCK_SIZE).
Proof.
  induction fuel as [|k IH]; intros d i Hi Hf; [lia|].
  pose proof (Zlength_correct d) as HL.
  simpl build_loop. destruct (Z.ltb_spec i (Zlength d)) as [Hlt|Hge].
  2:{ exists []. split; [reflexivity|]. split; [|split; [constructor|]].
      - simpl. symmetry. apply skipn_all2. lia.
      - intros j Hj. simpl in Hj. lia. }
  destruct (IH d (i + TARGET_BLOCK_SIZE) ltac:(zlia) ltac:(zlia))
    as [rest [Hrun [Hcat [Hall Hfull]]]].
  rewrite Hrun. cbn [bind].
  assert (He : Z.min (i + TARGET_BLOCK_SIZE) (Zlength d) - i
               = Z.min TARGET_BLOCK_SIZE (Zlength d - i)) by lia.
  rewrite He.
  set (c := firstn (Z.to_nat (Z.min TARGET_BLOCK_SIZE (Zlength d - i)))
                   (skipn (Z.to_nat i) d)).
  assert (Hlen : Zlength c = Z.min TARGET_BLOCK_SIZE (Zlength d - i)).
  { subst c. rewrite Zlength_correct, length_firstn, length_skipn. zlia. }
  exists (with_bounds c :: rest). split; [reflexivity|]. split; [|split].
  - simpl. rewrite Hcat. subst c.
    destruct (Z.le_gt_cases (i + TARGET_BLOCK_SIZE) (Zlength d)) as [Hle|Hgt].
    + replace (Z.to_nat (i + TARGET_BLOCK_SIZE)) with
        (Z.to_nat (Z.min TARGET_BLOCK_SIZE (Zlength d - i)) + Z.to_nat i)%nat
        by zlia.
      rewrite <- skipn_skipn. apply firstn_skipn.
    + rewrite (skipn_all2 (n := Z.to_nat (i + TARGET_BLOCK_SIZE)) d) by zlia.
      rewrite app_nil_r. apply firstn_all2.
      rewrite length_skipn. zlia.
  - constructor; [|exact Hall]. simpl. split; [reflexivity|]. split.
    + intros Hc. rewrite Hc, Zlength_nil in Hlen. zlia.
    + rewrite Hlen. zlia.
  - intros [|j] Hj; simpl.
    + rewrite Hlen. destruct rest as [|b r]; [simpl in Hj; lia|].
      simpl in Hcat. assert (Hb : data b <> []) by (inversion Hall; tauto).
      destruct (Z.le_gt_cases (i + TARGET_BLOCK_SIZE) (Zlength d)) as [Hle|Hgt].
      * zlia.
      * exfalso. rewrite skipn_all2 in Hcat by zlia.
        destruct (data b); [contradiction | discriminate].
    + apply Hfull. simpl in Hj. lia.
Qed.

Lemma build_spec : forall buf, exists d bs,
  build buf = Ok (d, bs)
  /\ d = unique (sort buf)
  /\ StronglySorted Z.lt d /\ (forall y, In y d <-> In y buf)
  /\ concat (map data bs) = d
  /\ Forall (fun b => b = with_bounds (data b) /\ data b <> []
                      /\ Zlength (data b) <= TARGET_BLOCK_SIZE) bs
  /\ (forall j, (S j < length bs)%nat ->
        Zlength (data (nth j bs new_block)) = TARGET_BLOCK_SIZE).
Proof.
  intros buf. destruct (unique_sort_spec buf) as [Hs Hin].
  destruct buf as [|a r] eqn:Eb.
  - exists [], []. split; [reflexivity|]. split; [reflexivity|].
    split; [constructor|]. split; [simpl; tauto|]. split; [reflexivity|].
    split; [constructor|]. intros j Hj. simpl in Hj. lia.
  - rewrite <- Eb in *. set (d := unique (sort buf)) in *.
    destruct (build_loop_spec (S (length d)) d 0 ltac:(lia)
                ltac:(rewrite Zlength_correct; lia))
      as [bs [Hrun [Hcat [Hall Hfull]]]].
    exists d, bs. unfold build. rewrite Eb. rewrite <- Eb. fold d.
    rewrite Hrun. cbn [bind]. split; [reflexivity|]. split; [reflexivity|].
    split; [exact Hs|]. split; [exact Hin|]. split; [exact Hcat|].
    split; [exact Hall | exact Hfull].
Qed.

Lemma check_20000_build : check_20000 (build seq_0_19999) = true.
Proof. vm_compute. reflexivity. Qed.

(** C8 ([build]): [build(values)] leaves the caller's buffer sorted
    ascending without duplicates and holding exactly the values it held
    before, and partitions it into consecutive blocks of [4096] elements
    (the last may be shorter, none is empty) whose [minVal]/[maxVal] are
    their first/last elements.  On [0..19999] it gives blocks of sizes
    [4096,4096,4096,4096,3616], [query(10000)] is [true] (with or without
    AVX2) and [rangeQuery(4090,4100)] is [[4090..4100]]. *)
Theorem C8_build_sort_dedup_chunks :
  (forall buf, exists d bs,
     build buf = Ok (d, bs)
     /\ StronglySorted Z.lt d /\ (forall y, In y d <-> In y buf)
     /\ concat (map data bs) = d
     /\ Forall (fun b => data b <> [] /\ Zlength (data b) <= TARGET_BLOCK_SIZE
                         /\ minVal b = hd 0 (data b) /\ maxVal b = last (data b) 0) bs
     /\ (forall j, (S j < length bs)%nat ->
           Zlength (data (nth j bs new_block)) = TARGET_BLOCK_SIZE))
  /\ (exists d bs, build seq_0_19999 = Ok (d, bs)
       /\ d = seq_0_19999
       /\ map (fun b => Zlength (data b)) bs = [4096; 4096; 4096; 4096; 3616]
       /\ query true bs 10000 = Ok true
       /\ query false bs 10000 = Ok true
       /\ rangeQuery bs 4090 4100
          = [4090; 4091; 4092; 4093; 4094; 4095; 4096; 4097; 4098; 4099; 4100]).
Proof.
  split.
  - intros buf.
    destruct (build_spec buf) as [d [bs [Hrun [_ [Hs [Hin [Hcat [Hall Hfull]]]]]]]].
    exists d, bs. split; [exact Hrun|]. split; [exact Hs|]. split; [exact Hin|].
    split; [exact Hcat|]. split; [|exact Hfull].
    eapply Forall_impl; [|exact Hall]. intros b [Hb [Hne Hlen]].
    split; [exact Hne|]. split; [exact Hlen|].
    rewrite Hb. split; reflexivity.
  - pose proof check_20000_build as Hc.
    destruct (build seq_0_19999) as [[d bs]|f]; [|discriminate Hc].
    unfold check_20000 in Hc.
    exists d, bs. split; [reflexivity|].
    destruct (list_eq_dec Z.eq_dec d seq_0_19999) as [H1|]; [|discriminate Hc].
    destruct (list_eq_dec Z.eq_dec _ _) as [H2|]; [|discriminate Hc].
    destruct (query true bs 10000) as [[]|]; try discriminate Hc.
    destruct (query false bs 10000) as [[]|]; try discriminate Hc.
    destruct (list_eq_dec Z.eq_dec _ _) as [H3|]; [|discriminate Hc].
    repeat split; assumption.
Qed.

(** ** Sorted lists *)

Lemma SS_app_inv : forall (l r : list Z), StronglySorted Z.lt (l ++ r) ->
  StronglySorted Z.lt l /\ StronglySorted Z.lt r
  /\ (forall a b, In a l -> In b r -> a < b).
Proof.
  induction l as [|a l IH]; intros r H; simpl in H.
  - split; [constructor|]. split; [exact H|]. intros a b [].
  - apply StronglySorted_inv in H as [Hs Hf].
    destruct (IH r Hs) as [H1 [H2 H3]].
    rewrite Forall_app in Hf. destruct Hf as [Hfl Hfr].
    split; [constructor; assumption|]. split; [exact H2|].
    intros a' b [Ha|Ha] Hb.
    + subst a'. rewrite Forall_forall in Hfr. apply Hfr, Hb.
    + apply H3; assumption.
Qed.

(** Putting [x] between a part below it and a part above it keeps the
    list strictly ascending. *)
Lemma SS_insert_mid : forall (l r : list Z) x, StronglySorted Z.lt (l ++ r) ->
  Forall (fun e => e < x) l -> Forall (fun e => x < e) r ->
  StronglySorted Z.lt (l ++ x :: r).
Proof.
  induction l as [|a l IH]; intros r x H Hl Hr; simpl in *.
  - constructor; assumption.
  - apply StronglySorted_inv in H as [Hs Hf]. inversion Hl; subst.
    constructor; [apply IH; assumption|].
    rewrite Forall_app in Hf |- *. destruct Hf as [Hf1 Hf2].
    split; [exact Hf1|]. constructor; [assumption|].
    eapply Forall_impl; [|exact Hr]. simpl. intros e He. lia.
Qed.

Lemma SS_filter : forall (p : Z -> bool) l, StronglySorted Z.lt l ->
  StronglySorted Z.lt (filter p l).
Proof.
  intros p. induction l as [|a l IH]; intros H; simpl; [constructor|].
  apply StronglySorted_inv in H as [Hs Hf].
  destruct (p a); [|apply IH, Hs].
  constructor; [apply IH, Hs|]. rewrite Forall_forall in Hf |- *.
  intros y Hy. apply filter_In in Hy. apply Hf, Hy.
Qed.

Lemma SS_hd_le : forall (a : Z) l y, StronglySorted Z.lt (a :: l) ->
  In y (a :: l) -> a <= y.
Proof.
  intros a l y H [Hy|Hy]; [lia|].
  apply StronglySorted_inv in H as [_ Hf]. rewrite Forall_forall in Hf.
  specialize (Hf y Hy). lia.
Qed.

Lemma In_last : forall (l : list Z) d, l <> [] -> In (last l d) l.
Proof.
  intros l d Hl. destruct (exists_last Hl) as [l' [a ->]].
  rewrite last_last. apply in_or_app. right. left. reflexivity.
Qed.

Lemma In_hd : forall (l : list Z) d, l <> [] -> In (hd d l) l.
Proof. intros [|a l] d Hl; [contradiction|]. left. reflexivity. Qed.

Lemma SS_le_last : forall (l : list Z) d y, StronglySorted Z.lt l ->
  In y l -> y <= last l d.
Proof.
  intros l d y H Hy. assert (Hl : l <> []) by (intros ->; destruct Hy).
  destruct (exists_last Hl) as [l' [a ->]]. rewrite last_last.
  apply SS_app_inv in H as [_ [_ H]].
  apply in_app_or in Hy as [Hy|[Hy|[]]]; [|lia].
  specialize (H y a Hy (or_introl eq_refl)). lia.
Qed.

Lemma filter_all : forall (p : Z -> bool) l,
  (forall y, In y l -> p y = true) -> filter p l = l.
Proof.
  intros p. induction l as [|a l IH]; intros H; simpl; [reflexivity|].
  rewrite (H a (or_introl eq_refl)). f_equal. apply IH.
  intros y Hy. apply H. right. exact Hy.
Qed.

Lemma filter_none : forall (p : Z -> bool) l,
  (forall y, In y l -> p y = false) -> filter p l = [].
Proof.
  intros p. induction l as [|a l IH]; intros H; simpl; [reflexivity|].
  rewrite (H a (or_introl eq_refl)). apply IH.
  intros y Hy. apply H. right. exact Hy.
Qed.

Lemma filter_filter_and : forall (p q : Z -> bool) l,
  filter q (filter p l) = filter (fun y => p y && q y) l.
Proof.
  intros p q. induction l as [|a l IH]; simpl; [reflexivity|].
  destruct (p a); simpl; [destruct (q a); [f_equal|]|]; exact IH.
Qed.

(** [std::lower_bound] and [std::upper_bound] on an ascending vector. *)
Lemma skipn_lower_bound : forall l low, StronglySorted Z.lt l ->
  skipn (lower_bound l low) l = filter (fun e => low <=? e) l.
Proof.
  induction l as [|a l IH]; intros low H; [reflexivity|].
  unfold lower_bound. simpl. destruct (Z.ltb_spec a low) as [Hlt|Hge].
  - apply StronglySorted_inv in H as [Hs _]. rewrite (proj2 (Z.leb_gt low a) Hlt).
    apply IH, Hs.
  - rewrite (proj2 (Z.leb_le low a) Hge). simpl. f_equal. symmetry.
    apply filter_all. intros y Hy. apply Z.leb_le.
    pose proof (SS_hd_le a l y H (or_intror Hy)).
    apply StronglySorted_inv in H as [_ Hf]. rewrite Forall_forall in Hf.
    specialize (Hf y Hy). lia.
Qed.

Lemma firstn_upper_bound : forall l high, StronglySorted Z.lt l ->
  firstn (upper_bound l high) l = filter (fun e => e <=? high) l.
Proof.
  induction l as [|a l IH]; intros high H; [reflexivity|].
  unfold upper_bound. simpl. destruct (Z.ltb_spec high a) as [Hlt|Hge]; simpl.
  - rewrite (proj2 (Z.leb_gt a high) Hlt). symmetry. apply filter_none.
    intros y Hy. apply Z.leb_gt.
    apply StronglySorted_inv in H as [_ Hf]. rewrite Forall_forall in Hf.
    specialize (Hf y Hy). lia.
  - rewrite (proj2 (Z.leb_le a high) Hge). f_equal.
    apply StronglySorted_inv in H as [Hs _]. apply IH, Hs.
Qed.

(** ** [partition_point] *)

Lemma pp_prefix : forall {A} (p : A -> bool) l,
  Forall (fun a => p a = true) (firstn (partition_point p l) l).
Proof.
  intros A p. induction l as [|a l IH]; simpl; [constructor|].
  destruct (p a) eqn:Ea; simpl; constructor; assumption.
Qed.

Lemma pp_le : forall {A} (p : A -> bool) l, (partition_point p l <= length l)%nat.
Proof.
  intros A p. induction l as [|a l IH]; simpl; [lia|]. destruct (p a); lia.
Qed.

Lemma pp_stop : forall {A} (p : A -> bool) l d, (partition_point p l < length l)%nat ->
  p (nth (partition_point p l) l d) = false.
Proof.
  intros A p. induction l as [|a l IH]; intros d H; simpl in *; [lia|].
  destruct (p a) eqn:Ea; [apply IH; lia | exact Ea].
Qed.

Lemma pp_true : forall {A} (p : A -> bool) l d i, (i < partition_point p l)%nat ->
  p (nth i l d) = true.
Proof.
  intros A p l d i H. pose proof (pp_prefix p l) as Hf.
  rewrite Forall_forall in Hf. pose proof (pp_le p l).
  assert (E : nth i (firstn (partition_point p l) l) d = nth i l d).
  { rewrite nth_firstn. destruct (Nat.ltb_spec i (partition_point p l)); [reflexivity | lia]. }
  rewrite <- E. apply Hf, nth_In. rewrite length_firstn. lia.
Qed.

(** ** Positions in a vector *)

Lemma skipn_nth : forall {A} (l : list A) n d, (n < length l)%nat ->
  skipn n l = nth n l d :: skipn (S n) l.
Proof.
  intros A. induction l as [|a l IH]; intros [|n] d H; simpl in *; try lia.
  - reflexivity.
  - apply IH. lia.
Qed.

Lemma nth_split : forall {A} (l : list A) n d, (n < length l)%nat ->
  l = firstn n l ++ nth n l d :: skipn (S n) l.
Proof.
  intros A l n d H. rewrite <- (skipn_nth l n d H). symmetry. apply firstn_skipn.
Qed.

Lemma split_parts : forall {A} (pre post : list A) b d,
  firstn (length pre) (pre ++ b :: post) = pre
  /\ nth (length pre) (pre ++ b :: post) d = b
  /\ skipn (S (length pre)) (pre ++ b :: post) = post.
Proof.
  intros A. induction pre as [|a pre IH]; intros post b d; simpl; [auto|].
  destruct (IH post b d) as [H1 [H2 H3]]. rewrite H1. auto.
Qed.

Lemma nth_error_skipn : forall {A} (l : list A) n y, nth_error l n = Some y ->
  skipn n l = y :: skipn (S n) l.
Proof.
  intros A. induction l as [|a l IH]; intros [|n] y H; simpl in *;
    try discriminate; [congruence|]. apply IH, H.
Qed.

(** ** [Block::insert] *)

Lemma block_insert_spec : forall b x, StronglySorted Z.lt (data b) ->
  (In x (data b) /\ block_insert b x = b)
  \/ (~ In x (data b) /\ exists l r, data b = l ++ r
        /\ block_insert b x = with_bounds (l ++ x :: r)
        /\ Forall (fun e => e < x) l /\ Forall (fun e => x < e) r).
Proof.
  intros b x Hs. unfold block_insert.
  set (d := data b) in *. set (i := lower_bound d x).
  assert (Hl : Forall (fun e => e < x) (firstn i d)).
  { eapply Forall_impl; [|apply (pp_prefix (fun e => e <? x) d)].
    simpl. intros e He. apply Z.ltb_lt, He. }
  assert (Hr : Forall (fun e => x <= e) (skipn i d)).
  { subst i. rewrite skipn_lower_bound by exact Hs. rewrite Forall_forall.
    intros e He. apply filter_In in He. apply Z.leb_le, He. }
  assert (Hsr : StronglySorted Z.lt (skipn i d)).
  { subst i. rewrite skipn_lower_bound by exact Hs. apply SS_filter, Hs. }
  assert (Habs : ~ In x (skipn i d) -> ~ In x d /\ exists l r, d = l ++ r
            /\ with_bounds (firstn i d ++ x :: skipn i d) = with_bounds (l ++ x :: r)
            /\ Forall (fun e => e < x) l /\ Forall (fun e => x < e) r).
  { intros Hn. split.
    - rewrite <- (firstn_skipn i d). intros Hx. apply in_app_or in Hx as [Hx|Hx].
      + rewrite Forall_forall in Hl. specialize (Hl x Hx). lia.
      + exact (Hn Hx).
    - exists (firstn i d), (skipn i d). split; [symmetry; apply firstn_skipn|].
      split; [reflexivity|]. split; [exact Hl|].
      rewrite Forall_forall in Hr |- *. intros e He. specialize (Hr e He).
      assert (e <> x) by (intros ->; exact (Hn He)). lia. }
  destruct (nth_error d i) as [y|] eqn:Ey.
  - pose proof (nth_error_skipn d i y Ey) as Hsk.
    destruct (Z.eqb_spec y x) as [->|Hne].
    + left. split; [|reflexivity]. eapply nth_error_In, Ey.
    + right. apply Habs. rewrite Hsk. intros [Hx|Hx]; [congruence|].
      rewrite Hsk in Hsr, Hr. inversion Hr; subst.
      apply StronglySorted_inv in Hsr as [_ Hf]. rewrite Forall_forall in Hf.
      specialize (Hf x Hx). lia.
  - right. apply Habs. apply nth_error_None in Ey.
    rewrite skipn_all2 by exact Ey. intros [].
Qed.

(** ** [splitBlockIfNeeded] at a block position *)

Lemma split_at : forall pre b post,
  splitBlockIfNeeded (pre ++ b :: post) (Z.of_nat (length pre)) =
  if Zlength (data b) <=? MAX_BLOCK_SIZE then pre ++ b :: post
  else pre ++ with_bounds (firstn (Z.to_nat (Zlength (data b) / 2)) (data b))
           :: with_bounds (skipn (Z.to_nat (Zlength (data b) / 2)) (data b)) :: post.
Proof.
  intros pre b post. destruct (split_parts pre post b new_block) as [H1 [H2 H3]].
  unfold splitBlockIfNeeded. cbv zeta. rewrite Nat2Z.id.
  assert (Hg : (Z.of_nat (length pre) <? 0)
               || (Zlength (pre ++ b :: post) <=? Z.of_nat (length pre)) = false).
  { rewrite Zlength_correct, length_app. simpl length.
    apply orb_false_iff. split; [apply Z.ltb_ge | apply Z.leb_gt]; lia. }
  rewrite Hg, H2. destruct (Zlength (data b) <=? MAX_BLOCK_SIZE); [reflexivity|].
  rewrite H1, H3. reflexivity.
Qed.

(** A block of at most [MAX_BLOCK_SIZE + 1] elements, put at its place and
    split if needed, leaves a well-formed engine. *)
Lemma engine_ok_split : forall pre b post,
  Forall block_ok pre -> Forall block_ok post ->
  data b <> [] -> minVal b = hd 0 (data b) -> maxVal b = last (data b) 0 ->
  Zlength (data b) <= MAX_BLOCK_SIZE + 1 ->
  StronglySorted Z.lt (concat (map data (pre ++ b :: post))) ->
  engine_ok (splitBlockIfNeeded (pre ++ b :: post) (Z.of_nat (length pre))).
Proof.
  intros pre b post Hpre Hpost Hne Hmin Hmax Hlen Hs. rewrite split_at.
  destruct (Z.leb_spec (Zlength (data b)) MAX_BLOCK_SIZE) as [Hle|Hgt].
  - split; [|exact Hs]. apply Forall_app. split; [exact Hpre|].
    constructor; [|exact Hpost]. repeat split; assumption.
  - pose proof (Zlength_correct (data b)) as HL.
    set (m := Z.to_nat (Zlength (data b) / 2)).
    assert (Hm : (1 <= m < length (data b))%nat) by (subst m; zlia).
    split.
    + apply Forall_app. split; [exact Hpre|].
      constructor; [|constructor; [|exact Hpost]]; unfold block_ok; simpl.
      * split; [|split; [reflexivity|split; [reflexivity|]]].
        -- intros E. apply (f_equal (@length Z)) in E.
           rewrite length_firstn in E. simpl in E. lia.
        -- rewrite Zlength_correct, length_firstn. subst m. zlia.
      * split; [|split; [reflexivity|split; [reflexivity|]]].
        -- intros E. apply (f_equal (@length Z)) in E.
           rewrite length_skipn in E. simpl in E. lia.
        -- rewrite Zlength_correct, length_skipn. subst m. zlia.
    + rewrite map_app, concat_app in Hs |- *. cbn [map concat data with_bounds] in Hs |- *.
      rewrite (app_assoc (firstn m (data b))), firstn_skipn. exact Hs.
Qed.

(** [insert] on a non-empty engine: the chosen block holds everything
    between the blocks before it, all below [x], and those after it, all
    above [x]. *)
Lemma insert_decomp : forall bs x, engine_ok bs -> bs <> [] ->
  exists pre b post, bs = pre ++ b :: post
    /\ insert bs x = splitBlockIfNeeded (pre ++ block_insert b x :: post)
                                         (Z.of_nat (length pre))
    /\ Forall (fun e => e < x) (concat (map data pre))
    /\ Forall (fun e => x < e) (concat (map data post)).
Proof.
  intros bs x [Hok Hs] Hne.
  assert (Hins : insert bs x =
    let k := upper_bound_min bs x in
    let idx := match k with O => O | S j => j end in
    splitBlockIfNeeded (firstn idx bs ++ block_insert (nth idx bs new_block) x
                          :: skipn (S idx) bs) (Z.of_nat idx))
    by (destruct bs; [congruence | reflexivity]).
  cbv zeta in Hins. rewrite Hins.
  pose proof (pp_le (fun b => negb (x <? minVal b)) bs) as Hk.
  pose proof (pp_stop (fun b => negb (x <? minVal b)) bs new_block) as Hst.
  pose proof (pp_true (fun b => negb (x <? minVal b)) bs new_block) as Htr.
  change (partition_point (fun b => negb (x <? minVal b)) bs)
    with (upper_bound_min bs x) in Hk, Hst, Htr.
  remember (upper_bound_min bs x) as k eqn:Ek. clear Ek Hins.
  assert (Hlen : (match k with O => O | S j => j end < length bs)%nat)
    by (destruct bs; [congruence|]; destruct k; simpl in *; lia).
  remember (match k with O => O | S j => j end) as idx eqn:Eidx in Hlen |- *.
  set (b := nth idx bs new_block).
  pose proof (nth_split bs idx new_block Hlen) as Hbs.
  assert (Hpl : length (firstn idx bs) = idx) by (rewrite length_firstn; lia).
  exists (firstn idx bs), b, (skipn (S idx) bs).
  split; [exact Hbs|]. split; [rewrite Hpl; reflexivity|].
  assert (Hbok : block_ok b).
  { rewrite Forall_forall in Hok. apply Hok, nth_In, Hlen. }
  destruct Hbok as [Hbne [Hbmin _]].
  rewrite Hbs, map_app, concat_app in Hs. cbn [map concat] in Hs.
  apply SS_app_inv in Hs as [_ [HsBC HsA]].
  pose proof HsBC as HsBC'. apply SS_app_inv in HsBC' as [_ [HsC HsB]].
  pose proof (In_hd (data b) 0 Hbne) as Hhd.
  destruct k as [|j].
  - simpl in Eidx. rewrite Eidx. simpl firstn. split; [constructor|].
    rewrite Eidx in HsB, Hlen. specialize (Hst Hlen).
    assert (Eb : nth 0 bs new_block = b) by (unfold b; rewrite Eidx; reflexivity).
    rewrite Eb in Hst, HsB. apply negb_false_iff, Z.ltb_lt in Hst.
    rewrite Forall_forall. intros e He.
    specialize (HsB _ _ Hhd He). lia.
  - specialize (Htr j ltac:(lia)). apply negb_true_iff, Z.ltb_ge in Htr.
    simpl in Eidx.
    assert (Eb : nth j bs new_block = b) by (unfold b; rewrite Eidx; reflexivity).
    rewrite Eb in Htr. split.
    + rewrite Forall_forall. intros e He.
      specialize (HsA e (hd 0 (data b)) He (in_or_app _ _ _ (or_introl Hhd))). lia.
    + destruct (Nat.lt_ge_cases (S j) (length bs)) as [Hlt|Hge].
      * specialize (Hst Hlt). apply negb_false_iff, Z.ltb_lt in Hst.
        assert (Hcok : block_ok (nth (S j) bs new_block)).
        { rewrite Forall_forall in Hok. apply Hok, nth_In, Hlt. }
        destruct Hcok as [Hcne [Hcmin _]].
        rewrite Eidx in HsC |- *. rewrite (skipn_nth bs (S j) new_block Hlt) in HsC |- *.
        cbn [map concat] in HsC |- *.
        destruct (data (nth (S j) bs new_block)) as [|c cs] eqn:Ec; [contradiction|].
        simpl in Hcmin. rewrite Forall_forall. intros e He.
        pose proof (SS_hd_le c (cs ++ concat (map data (skipn (S (S j)) bs))) e HsC He).
        lia.
      * rewrite Eidx, skipn_all2 by lia. constructor.
Qed.

Lemma insert_engine_ok : forall bs x, engine_ok bs -> engine_ok (insert bs x).
Proof.
  intros bs x Hok. destruct bs as [|a r].
  - split; [constructor; [|constructor]|]; simpl.
    + split; [discriminate|]. split; [reflexivity|]. split; [reflexivity|].
      unfold Zlength, MAX_BLOCK_SIZE. simpl. lia.
    + constructor; constructor.
  - destruct (insert_decomp (a :: r) x Hok ltac:(discriminate))
      as [pre [b [post [Hbs [Hins [Hlo Hhi]]]]]].
    rewrite Hins. destruct Hok as [Hbo Hs]. rewrite Hbs in Hbo, Hs.
    apply Forall_app in Hbo as [Hpre Hbo]. inversion Hbo as [|? ? Hb Hpost]; subst.
    destruct Hb as [Hbne [Hbmin [Hbmax Hblen]]].
    assert (Hsb : StronglySorted Z.lt (data b)).
    { rewrite map_app, concat_app in Hs. cbn [map concat] in Hs.
      apply SS_app_inv in Hs as [_ [Hs _]]. apply SS_app_inv in Hs as [Hs _]. exact Hs. }
    destruct (block_insert_spec b x Hsb) as [[_ ->]|[_ [l [r' [Hd [-> [Hl Hr]]]]]]].
    + apply engine_ok_split; try assumption. lia.
    + apply engine_ok_split; try assumption; cbn [data with_bounds].
      * intros E. destruct l; discriminate E.
      * reflexivity.
      * reflexivity.
      * rewrite Hd in Hblen. rewrite !Zlength_correct in *.
        rewrite length_app in *. simpl length. lia.
      * rewrite map_app, concat_app in Hs |- *. cbn [map concat data with_bounds] in Hs |- *.
        rewrite Hd in Hs.
        replace (concat (map data pre) ++ (l ++ x :: r') ++ concat (map data post))
          with ((concat (map data pre) ++ l) ++ x :: (r' ++ concat (map data post)))
          by (rewrite <- !app_assoc; reflexivity).
        apply SS_insert_mid.
        -- rewrite <- !app_assoc. rewrite <- (app_assoc l) in Hs. exact Hs.
        -- apply Forall_app. split; assumption.
        -- apply Forall_app. split; assumption.
Qed.

Lemma build_engine_ok : forall buf d bs, build buf = Ok (d, bs) -> engine_ok bs.
Proof.
  intros buf d bs H.
  destruct (build_spec buf) as [d' [bs' [Hrun [_ [Hs [_ [Hcat [Hall _]]]]]]]].
  rewrite Hrun in H. injection H as <- <-. split.
  - eapply Forall_impl; [|exact Hall]. intros b [Hb [Hne Hlen]].
    split; [exact Hne|]. rewrite Hb. split; [reflexivity|]. split; [reflexivity|].
    unfold TARGET_BLOCK_SIZE in Hlen. unfold MAX_BLOCK_SIZE. simpl. lia.
  - rewrite Hcat. exact Hs.
Qed.

Lemma reachable_engine_ok : forall bs, reachable bs -> engine_ok bs.
Proof.
  induction 1 as [buf d bs Hb | bs x _ IH].
  - exact (build_engine_ok buf d bs Hb).
  - apply insert_engine_ok, IH.
Qed.

(** ** [rangeQuery] *)

Lemma blocks_sorted : forall bs, StronglySorted Z.lt (concat (map data bs)) ->
  Forall (fun c => StronglySorted Z.lt (data c)) bs.
Proof.
  induction bs as [|b r IH]; intros H; [constructor|]. cbn [map concat] in H.
  apply SS_app_inv in H as [H1 [H2 _]]. constructor; [exact H1 | apply IH, H2].
Qed.

Lemma range_scan_filter : forall bs low high, Forall block_ok bs ->
  StronglySorted Z.lt (concat (map data bs)) ->
  range_scan bs low high
  = filter (fun y => (low <=? y) && (y <=? high)) (concat (map data bs)).
Proof.
  induction bs as [|b r IH]; intros low high Hok Hs; [reflexivity|].
  inversion Hok as [|? ? [Hbne [Hbmin _]] Hr]; subst.
  cbn [map concat] in Hs |- *. pose proof Hs as Hs'.
  apply SS_app_inv in Hs' as [Hsb [Hsr _]]. simpl range_scan.
  destruct (Z.leb_spec (minVal b) high) as [Hle|Hgt].
  - rewrite skipn_lower_bound by exact Hsb.
    rewrite firstn_upper_bound by (apply SS_filter, Hsb).
    rewrite filter_filter_and, filter_app, (IH low high Hr Hsr). reflexivity.
  - symmetry. apply filter_none. intros y Hy.
    destruct (data b) as [|h t] eqn:Eb; [contradiction|]. simpl in Hbmin.
    pose proof (SS_hd_le h (t ++ concat (map data r)) y Hs Hy).
    rewrite (proj2 (Z.leb_gt y high)) by lia. apply andb_false_r.
Qed.

(** On a well-formed engine [rangeQuery] is the in-range part of the
    stored values, in block order. *)
Lemma rangeQuery_filter : forall bs low high, engine_ok bs ->
  rangeQuery bs low high
  = filter (fun y => (low <=? y) && (y <=? high)) (concat (map data bs)).
Proof.
  intros bs low high [Hok Hs]. unfold rangeQuery.
  pose proof (pp_prefix (fun b => maxVal b <? low) bs) as Hpre.
  change (partition_point (fun b => maxVal b <? low) bs)
    with (lower_bound_max bs low) in Hpre |- *.
  set (j := lower_bound_max bs low) in *.
  assert (E : concat (map data bs)
              = concat (map data (firstn j bs)) ++ concat (map data (skipn j bs)))
    by (rewrite <- concat_app, <- map_app, firstn_skipn; reflexivity).
  rewrite E in Hs |- *. rewrite <- (firstn_skipn j bs) in Hok.
  apply Forall_app in Hok as [Hok1 Hok2].
  pose proof Hs as Hs'. apply SS_app_inv in Hs' as [Hs1 [Hs2 _]].
  rewrite filter_app, (range_scan_filter _ low high Hok2 Hs2).
  replace (filter _ (concat (map data (firstn j bs)))) with (@nil Z); [reflexivity|].
  symmetry. apply filter_none. intros y Hy.
  apply in_concat in Hy as [l [Hl Hy]]. apply in_map_iff in Hl as [c [<- Hc]].
  pose proof (blocks_sorted _ Hs1) as Hsc.
  rewrite Forall_forall in Hpre, Hok1, Hsc.
  specialize (Hpre c Hc). apply Z.ltb_lt in Hpre.
  destruct (Hok1 c Hc) as [_ [_ [Hmax _]]].
  pose proof (SS_le_last (data c) 0 y (Hsc c Hc) Hy).
  rewrite (proj2 (Z.leb_gt low y)) by lia. reflexivity.
Qed.

(** * Claims over the engine invariant *)

(** C2 (ascending, non-overlapping blocks): in every engine obtained by
    [build] followed by any sequence of [insert]s (splits included), each
    pair of consecutive blocks [i], [i+1] satisfies
    [blocks[i].maxVal < blocks[i+1].minVal]. *)
Theorem C2_blocks_ascending : forall bs, reachable bs ->
  forall i, (S i < length bs)%nat ->
  maxVal (nth i bs new_block) < minVal (nth (S i) bs new_block).
Proof.
  intros bs Hr i Hi. destruct (reachable_engine_ok bs Hr) as [Hok Hs].
  rewrite Forall_forall in Hok.
  destruct (Hok _ (nth_In bs new_block (Nat.lt_succ_l _ _ Hi))) as [Hne1 [_ [Hmax _]]].
  destruct (Hok _ (nth_In bs new_block Hi)) as [Hne2 [Hmin _]].
  pose proof (nth_split bs i new_block ltac:(lia)) as Hbs.
  rewrite (skipn_nth bs (S i) new_block Hi) in Hbs.
  rewrite Hbs, map_app, concat_app in Hs. cbn [map concat] in Hs.
  apply SS_app_inv in Hs as [_ [Hs _]]. apply SS_app_inv in Hs as [_ [_ H]].
  rewrite Hmax, Hmin. apply H.
  - apply In_last, Hne1.
  - apply in_or_app. left. apply In_hd, Hne2.
Qed.

Lemma C2_blocks_ascending_witness :
  reachable engine_0_4096 /\ (1 < length engine_0_4096)%nat
  /\ maxVal (nth 0 engine_0_4096 new_block) < minVal (nth 1 engine_0_4096 new_block).
Proof.
  assert (Hr : reachable engine_0_4096)
    by (apply (reach_build (iota_Z 0 (Z.to_nat 4097)) (iota_Z 0 (Z.to_nat 4097)));
        vm_compute; reflexivity).
  assert (Hl : (1 < length engine_0_4096)%nat)
    by (apply Nat.ltb_lt; vm_compute; reflexivity).
  split; [exact Hr|]. split; [exact Hl|].
  exact (C2_blocks_ascending engine_0_4096 Hr 0 Hl).
Defined.

(** C10 (inserting a present value changes nothing): in every engine
    obtained by [build] followed by [insert]s, if [x] is already stored then
    [insert(x)] leaves the whole state unchanged: same number of blocks,
    same element sequences, same cached [minVal]/[maxVal], no split. *)
Theorem C10_insert_present_noop : forall bs x, reachable bs -> present bs x ->
  insert bs x = bs.
Proof.
  intros bs x Hr [c [Hc Hx]]. pose proof (reachable_engine_ok bs Hr) as Hok.
  destruct bs as [|a r]; [destruct Hc|].
  destruct (insert_decomp (a :: r) x Hok ltac:(discriminate))
    as [pre [b [post [Hbs [Hins [Hlo Hhi]]]]]].
  rewrite Hins. destruct Hok as [Hbo Hs]. rewrite Hbs in Hbo, Hs, Hc |- *.
  apply Forall_app in Hbo as [_ Hbo]. inversion Hbo as [|? ? Hb _]; subst.
  destruct Hb as [_ [_ [_ Hblen]]].
  assert (Hin : forall l, In c l -> In x (concat (map data l)))
    by (intros l Hl; apply in_concat; exists (data c); split; [apply in_map, Hl | exact Hx]).
  assert (Hxb : In x (data b)).
  { apply in_app_or in Hc as [Hc|[<-|Hc]]; [|exact Hx|].
    - rewrite Forall_forall in Hlo. specialize (Hlo x (Hin _ Hc)). lia.
    - rewrite Forall_forall in Hhi. specialize (Hhi x (Hin _ Hc)). lia. }
  assert (Hsb : StronglySorted Z.lt (data b)).
  { rewrite map_app, concat_app in Hs. cbn [map concat] in Hs.
    apply SS_app_inv in Hs as [_ [Hs _]]. apply SS_app_inv in Hs as [Hs _]. exact Hs. }
  destruct (block_insert_spec b x Hsb) as [[_ ->]|[Hn _]]; [|contradiction].
  rewrite split_at, (proj2 (Z.leb_le _ _) Hblen). reflexivity.
Qed.

Lemma C10_insert_present_noop_witness :
  reachable [mkBlock 1 5 [1; 3; 5]] /\ present [mkBlock 1 5 [1; 3; 5]] 3
  /\ insert [mkBlock 1 5 [1; 3; 5]] 3 = [mkBlock 1 5 [1; 3; 5]].
Proof.
  assert (Hr : reachable [mkBlock 1 5 [1; 3; 5]])
    by (apply (reach_build [5; 3; 1] [1; 3; 5]); vm_compute; reflexivity).
  assert (Hp : present [mkBlock 1 5 [1; 3; 5]] 3)
    by (exists (mkBlock 1 5 [1; 3; 5]); simpl; tauto).
  split; [exact Hr|]. split; [exact Hp|].
  exact (C10_insert_present_noop _ 3 Hr Hp).
Defined.

(** C6 ([rangeQuery]): for an engine built from [buf] and all [low],
    [high], [rangeQuery(low, high)] is exactly the distinct values of [buf]
    in [[low, high]], in ascending order (possibly none). *)
Theorem C6_rangeQuery_exact : forall buf low high, exists d bs,
  build buf = Ok (d, bs)
  /\ rangeQuery bs low high = filter (fun y => (low <=? y) && (y <=? high)) d
  /\ StronglySorted Z.lt (rangeQuery bs low high)
  /\ (forall y, In y (rangeQuery bs low high) <-> In y buf /\ low <= y <= high).
Proof.
  intros buf low high.
  destruct (build_spec buf) as [d [bs [Hrun [_ [Hs [Hin [Hcat _]]]]]]].
  exists d, bs. split; [exact Hrun|].
  rewrite (rangeQuery_filter bs low high (build_engine_ok buf d bs Hrun)), Hcat.
  split; [reflexivity|]. split; [apply SS_filter, Hs|].
  intros y. rewrite filter_In, Hin, andb_true_iff, !Z.leb_le. reflexivity.
Qed.

Lemma C7_search_avx2_equiv_scalar_witness :
  iota_Z 0 40 <> [] /\ StronglySorted Z.lt (iota_Z 0 40)
  /\ Zlength (iota_Z 0 40) <= MAX_VECTOR_SIZE
  /\ search true (iota_Z 0 40) 30 = search false (iota_Z 0 40) 30.
Proof.
  assert (H1 : iota_Z 0 40 <> []) by discriminate.
  assert (H2 : StronglySorted Z.lt (iota_Z 0 40))
    by (simpl; repeat constructor).
  assert (H3 : Zlength (iota_Z 0 40) <= MAX_VECTOR_SIZE)
    by (apply Z.leb_le; vm_compute; reflexivity).
  split; [exact H1|]. split; [exact H2|]. split; [exact H3|].
  exact (C7_search_avx2_equiv_scalar _ 30 H1 H2 H3).
Defined.

(** * Further properties of the code *)

(** ** [Block::search] answers correctly whenever it returns *)

Lemma inw_full : forall d x, inw d x 0 (Zlength d - 1) <-> In x d.
Proof.
  intros d x. split.
  - intros [i [Hi Hx]]. rewrite <- Hx. apply nth_In_Z. lia.
  - intros Hx. destruct (In_nth d x 0 Hx) as [n [Hn Hnx]].
    exists (Z.of_nat n). rewrite Nat2Z.id, Zlength_correct. split; [lia | exact Hnx].
Qed.

Lemma interp_step_spec : forall d x l h r, sorted_at d ->
  0 <= l <= h -> h < Zlength d -> Zlength d < SIZE_MOD ->
  interp_step d x l h = Ok r ->
  (r = Return true /\ inw d x l h)
  \/ (exists l' h', r = Continue l' h' /\ (inw d x l h <-> inw d x l' h')).
Proof.
  intros d x l h r Hs Hlh Hh Hd H. unfold interp_step in H.
  replace (h <? l) with false in H by (symmetry; apply Z.ltb_ge; lia).
  rewrite (at_ok d l) in H by lia. cbn [bind] in H.
  destruct (Z.eqb_spec (nth (Z.to_nat l) d 0) x) as [E|Nl].
  { injection H as <-. left. split; [reflexivity|]. exists l. split; [lia | exact E]. }
  rewrite (at_ok d h) in H by lia. cbn [bind] in H.
  destruct (Z.eqb_spec (nth (Z.to_nat h) d 0) x) as [E|Nh].
  { injection H as <-. left. split; [reflexivity|]. exists h. split; [lia | exact E]. }
  destruct (int_sub x _) as [num|]; cbn [bind] in H; [|discriminate].
  destruct (int_sub (nth (Z.to_nat h) d 0) (nth (Z.to_nat l) d 0)) as [den|] eqn:Eden;
    cbn [bind] in H; [|discriminate].
  assert (Hlt : l < h).
  { destruct (Z.eq_dec l h) as [->|]; [|lia].
    unfold int_sub in Eden. rewrite Z.sub_diag in Eden. cbn in Eden.
    injection Eden as <-. discriminate H. }
  destruct (ddiv_int _ den); cbn [bind] in H; [|discriminate].
  destruct (to_size_t _) as [p|]; cbn [bind] in H; [|discriminate].
  rewrite (sz_id (l + 1)), (sz_id (h - 1)) in H by zlia.
  unfold clamp in H. destruct (h - 1 <? l + 1) eqn:Ec; [discriminate|].
  apply Z.ltb_ge in Ec. cbn [bind] in H.
  set (mid := Z.min (Z.max p (l + 1)) (h - 1)) in H.
  assert (Hm : l + 1 <= mid <= h - 1) by (subst mid; lia).
  rewrite (at_ok d mid) in H by lia. cbn [bind] in H.
  destruct (Z.eqb_spec (nth (Z.to_nat mid) d 0) x) as [E|Nm].
  { injection H as <-. left. split; [reflexivity|]. exists mid. split; [lia | exact E]. }
  right. destruct (Z.ltb_spec (nth (Z.to_nat mid) d 0) x) as [Hlx|Hgx];
    injection H as <-; rewrite sz_id by zlia; eexists _, _; split; try reflexivity;
    split; intros [i [Hi Hx]]; try (exists i; split; [lia | exact Hx]).
  - exists i. split; [|exact Hx]. destruct (Z.le_gt_cases i mid) as [Him|Him]; [|lia].
    pose proof (sorted_at_le d i mid Hs ltac:(lia) ltac:(lia)). lia.
  - exists i. split; [|exact Hx]. destruct (Z.le_gt_cases mid i) as [Him|Him]; [|lia].
    pose proof (sorted_at_le d mid i Hs ltac:(lia) ltac:(lia)). lia.
Qed.

Lemma interp_stage_spec : forall n d x l h r, sorted_at d ->
  0 <= l <= h -> h < Zlength d -> Zlength d < SIZE_MOD ->
  interp_stage n d x l h = Ok r ->
  (r = Return true /\ inw d x l h)
  \/ (exists l' h', r = Continue l' h' /\ 0 <= l' <= h' /\ h' < Zlength d
        /\ (inw d x l h <-> inw d x l' h')).
Proof.
  induction n as [|n IH]; intros d x l h r Hs Hlh Hh Hd H; simpl in H.
  - injection H as <-. right. exists l, h. split; [reflexivity|]. split; [lia|].
    split; [lia | reflexivity].
  - destruct (interp_step d x l h) as [[b|l1 h1]|] eqn:E; cbn [bind] in H;
      try discriminate.
    + injection H as <-.
      destruct (interp_step_spec d x l h _ Hs Hlh Hh Hd E)
        as [[-> Hw]|[? [? [Habs _]]]]; [left; auto | discriminate Habs].
    + destruct (interp_step_window d x l h l1 h1 Hlh Hh Hd E) as [H1 H2].
      destruct (interp_step_spec d x l h _ Hs Hlh Hh Hd E)
        as [[Habs _]|[l2 [h2 [Ec Hiff]]]]; [discriminate Habs|].
      injection Ec as <- <-.
      destruct (IH d x l1 h1 r Hs H1 H2 Hd H) as [[-> Hw]|[l' [h' [-> [Hw1 [Hw2 Hiff']]]]]].
      * left. split; [reflexivity | apply Hiff, Hw].
      * right. exists l', h'. split; [reflexivity|]. split; [exact Hw1|].
        split; [exact Hw2|]. rewrite Hiff. exact Hiff'.
Qed.

Lemma scalar_correct : forall d x fuel l h b, sorted_at d ->
  Zlength d <= MAX_VECTOR_SIZE -> 0 <= l -> l <= h + 1 -> 0 <= h < Zlength d ->
  h - l + 3 <= Z.of_nat fuel ->
  scalar_stage fuel d x l h = Ok b -> (b = true <-> inw d x l h).
Proof.
  intros d x fuel l h b Hs Hd Hl Hlh Hh Hf H.
  destruct (scalar_spec d x Hs Hd fuel l h Hl Hlh Hh Hf) as [A1 [A2 A3]].
  destruct (inw_dec d x l h) as [Hw|Hw].
  - rewrite (A1 Hw) in H. injection H as <-. tauto.
  - destruct (Z.eq_dec l 0) as [Hl0|Hl0];
      [destruct (Z_lt_le_dec x (nth 0 d 0)) as [Hx0|Hx0]|].
    + rewrite (A2 Hw Hl0 Hx0) in H. discriminate H.
    + rewrite A3 in H by (auto; intros; lia). injection H as <-.
      split; [discriminate | contradiction].
    + rewrite A3 in H by (auto; intros; lia). injection H as <-.
      split; [discriminate | contradiction].
Qed.

Lemma at_In : forall d i v, at_ d i = Ok v -> In v d.
Proof.
  intros d i v H. unfold at_ in H.
  destruct ((0 <=? i) && (i <? Zlength d)) eqn:E; [|discriminate].
  injection H as <-. apply andb_true_iff in E as [E1 E2].
  apply nth_In_Z. split; [apply Z.leb_le, E1 | apply Z.ltb_lt, E2].
Qed.

Lemma interp_step_true : forall d x l h, interp_step d x l h = Ok (Return true) -> In x d.
Proof.
  intros d x l h H. unfold interp_step in H. destruct (h <? l); [discriminate|].
  destruct (at_ d l) as [dl|] eqn:E1; cbn [bind] in H; [|discriminate].
  destruct (Z.eqb_spec dl x) as [<-|_]; [exact (at_In _ _ _ E1)|].
  destruct (at_ d h) as [dh|] eqn:E2; cbn [bind] in H; [|discriminate].
  destruct (Z.eqb_spec dh x) as [<-|_]; [exact (at_In _ _ _ E2)|].
  destruct (int_sub x dl); cbn [bind] in H; [|discriminate].
  destruct (int_sub dh dl); cbn [bind] in H; [|discriminate].
  destruct (ddiv_int _ _); cbn [bind] in H; [|discriminate].
  destruct (to_size_t _); cbn [bind] in H; [|discriminate].
  destruct (clamp _ _ _) as [mid|]; cbn [bind] in H; [|discriminate].
  destruct (at_ d mid) as [dm|] eqn:E3; cbn [bind] in H; [|discriminate].
  destruct (Z.eqb_spec dm x) as [<-|_]; [exact (at_In _ _ _ E3)|].
  destruct (dm <? x); discriminate.
Qed.

Lemma interp_stage_true : forall n d x l h,
  interp_stage n d x l h = Ok (Return true) -> In x d.
Proof.
  induction n as [|n IH]; intros d x l h H; simpl in H; [discriminate|].
  destruct (interp_step d x l h) as [[b|l1 h1]|] eqn:E; cbn [bind] in H;
    try discriminate.
  - injection H as ->. exact (interp_step_true d x l h E).
  - exact (IH d x l1 h1 H).
Qed.

Lemma scalar_true : forall fuel d x l h, scalar_stage fuel d x l h = Ok true -> In x d.
Proof.
  induction fuel as [|k IH]; intros d x l h H; simpl in H; [discriminate|].
  destruct (l <=? h); [|discriminate].
  destruct (at_ d _) as [dm|] eqn:E; cbn [bind] in H; [|discriminate].
  destruct (Z.eqb_spec dm x) as [<-|_]; [exact (at_In _ _ _ E)|].
  destruct (dm <? x); eapply IH; exact H.
Qed.

Lemma search_true : forall avx2 d x, search avx2 d x = Ok true -> In x d.
Proof.
  intros avx2 d x H. unfold search in H. destruct d as [|a r]; [discriminate|].
  destruct (interp_stage 3 _ x 0 _) as [[b|l h]|] eqn:E; cbn [bind] in H;
    try discriminate.
  - injection H as ->. exact (interp_stage_true _ _ _ _ _ E).
  - destruct (if avx2 then _ else _) as [w|]; cbn [bind] in H; [|discriminate].
    exact (scalar_true _ _ _ _ _ H).
Qed.

(** ** Blocks of a well-formed engine *)

Lemma present_concat : forall bs y, present bs y <-> In y (concat (map data bs)).
Proof.
  intros bs y. split.
  - intros [b [Hb Hy]]. apply in_concat. exists (data b). split; [apply in_map, Hb | exact Hy].
  - intros Hy. apply in_concat in Hy as [l [Hl Hy]]. apply in_map_iff in Hl as [c [<- Hc]].
    exists c. split; assumption.
Qed.

Lemma contains_range : forall b x, contains b x = true -> minVal b <= x <= maxVal b.
Proof.
  intros b x H. unfold contains in H. apply andb_true_iff in H as [H H2].
  apply andb_true_iff in H as [_ H1]. apply Z.leb_le in H1, H2. lia.
Qed.

Lemma contains_in_block : forall b x, block_ok b -> StronglySorted Z.lt (data b) ->
  In x (data b) -> contains b x = true.
Proof.
  intros b x [Hne [Hmin [Hmax _]]] Hs Hx. unfold contains.
  destruct (data b) as [|h t] eqn:Ed; [contradiction|]. simpl negb.
  rewrite Hmin, Hmax. simpl hd.
  rewrite (proj2 (Z.leb_le h x)) by exact (SS_hd_le h t x Hs Hx).
  rewrite (proj2 (Z.leb_le x (last (h :: t) 0))) by exact (SS_le_last _ 0 x Hs Hx).
  reflexivity.
Qed.

Lemma block_min_le_max : forall b, block_ok b -> StronglySorted Z.lt (data b) ->
  minVal b <= maxVal b.
Proof.
  intros b [Hne [Hmin [Hmax _]]] Hs. rewrite Hmin, Hmax.
  apply SS_le_last; [exact Hs | apply In_hd, Hne].
Qed.

(** Any two blocks, not only consecutive ones, are in ascending order. *)
Lemma blocks_ascending : forall bs i j, engine_ok bs -> (i < j)%nat -> (j < length bs)%nat ->
  maxVal (nth i bs new_block) < minVal (nth j bs new_block).
Proof.
  intros bs i j [Hok Hs] Hij Hj. rewrite Forall_forall in Hok.
  destruct (Hok _ (nth_In bs new_block (Nat.lt_trans _ _ _ Hij Hj))) as [Hne1 [_ [Hmax _]]].
  destruct (Hok _ (nth_In bs new_block Hj)) as [Hne2 [Hmin _]].
  assert (Hin : In (nth j bs new_block) (skipn (S i) bs)).
  { replace j with (S i + (j - S i))%nat by lia. rewrite <- nth_skipn.
    apply nth_In. rewrite length_skipn. lia. }
  pose proof (nth_split bs i new_block ltac:(lia)) as Hbs.
  rewrite Hbs, map_app, concat_app in Hs. cbn [map concat] in Hs.
  apply SS_app_inv in Hs as [_ [Hs _]]. apply SS_app_inv in Hs as [_ [_ H]].
  rewrite Hmax, Hmin. apply H; [apply In_last, Hne1|].
  apply in_concat. exists (data (nth j bs new_block)).
  split; [apply in_map, Hin | apply In_hd, Hne2].
Qed.

(** ** [findBlockContaining] *)

Lemma find_loop_spec : forall bs x, engine_ok bs ->
  forall fuel left right result,
  0 <= left -> left <= right + 1 -> right < Zlength bs ->
  right - left + 1 < Z.of_nat fuel ->
  (forall j, 0 <= j < left -> maxVal (nth (Z.to_nat j) bs new_block) < x) ->
  (forall j, right < j < Zlength bs -> x <= maxVal (nth (Z.to_nat j) bs new_block)) ->
  ((result = -1 /\ forall j, right < j < Zlength bs ->
                    contains (nth (Z.to_nat j) bs new_block) x = false)
   \/ (right < result < Zlength bs
       /\ contains (nth (Z.to_nat result) bs new_block) x = true)) ->
  exists r, find_loop fuel bs x left right result = Ok r
    /\ ((r = -1 /\ forall j, 0 <= j < Zlength bs ->
                   contains (nth (Z.to_nat j) bs new_block) x = false)
        \/ (0 <= r < Zlength bs /\ contains (nth (Z.to_nat r) bs new_block) x = true)).
Proof.
  intros bs x Hok.
  pose proof (Zlength_correct bs) as HN.
  assert (Hbk : forall j, 0 <= j < Zlength bs ->
            block_ok (nth (Z.to_nat j) bs new_block)
            /\ StronglySorted Z.lt (data (nth (Z.to_nat j) bs new_block))).
  { intros j Hj. destruct Hok as [Hb Hs]. pose proof (blocks_sorted _ Hs) as Hs'.
    rewrite Forall_forall in Hb, Hs'.
    assert (Hi : In (nth (Z.to_nat j) bs new_block) bs) by (apply nth_In; lia).
    split; [apply Hb, Hi | apply Hs', Hi]. }
  assert (Hasc : forall i j, 0 <= i < j -> j < Zlength bs ->
            maxVal (nth (Z.to_nat i) bs new_block) < minVal (nth (Z.to_nat j) bs new_block))
    by (intros i j Hij Hj; apply blocks_ascending; [exact Hok | lia | lia]).
  assert (Hmm : forall j, 0 <= j < Zlength bs ->
            minVal (nth (Z.to_nat j) bs new_block) <= maxVal (nth (Z.to_nat j) bs new_block))
    by (intros j Hj; destruct (Hbk j Hj); apply block_min_le_max; assumption).
  assert (Hout : forall b, (x < minVal b \/ maxVal b < x) -> contains b x = false).
  { intros b Hb. destruct (contains b x) eqn:E; [|reflexivity].
    apply contains_range in E. lia. }
  induction fuel as [|k IH]; intros left right result Hl Hlr Hr Hf Hbelow Habove Hres;
    [lia|].
  simpl find_loop. destruct (Z.leb_spec left right) as [Hle|Hgt].
  - set (mid := left + (right - left) / 2).
    assert (Hm : left <= mid <= right) by (subst mid; Z.div_mod_to_equations; lia).
    unfold block_at.
    replace ((0 <=? mid) && (mid <? Zlength bs)) with true
      by (symmetry; apply andb_true_intro; split; [apply Z.leb_le | apply Z.ltb_lt]; lia).
    cbn [bind].
    destruct (Z.ltb_spec (maxVal (nth (Z.to_nat mid) bs new_block)) x) as [Hlt|Hge].
    + apply IH; try lia; [|exact Habove|].
      * intros j Hj. destruct (Z.eq_dec j mid) as [->|Hne]; [exact Hlt|].
        pose proof (Hasc j mid ltac:(lia) ltac:(lia)).
        pose proof (Hmm mid ltac:(lia)). lia.
      * destruct Hres as [[-> H]|[H1 H2]]; [left | right]; auto.
    + apply IH; try lia; [exact Hbelow| |].
      * intros j Hj. destruct (Z.eq_dec j mid) as [->|Hne]; [lia|].
        destruct (Z.le_gt_cases j right) as [Hjr|Hjr]; [|apply Habove; lia].
        pose proof (Hasc mid j ltac:(lia) ltac:(lia)).
        pose proof (Hmm j ltac:(lia)). lia.
      * destruct (contains (nth (Z.to_nat mid) bs new_block) x) eqn:Ec.
        -- right. split; [lia | exact Ec].
        -- destruct Hres as [[-> H]|[H1 H2]]; [left | right; split; [lia | exact H2]].
           split; [reflexivity|]. intros j Hj.
           destruct (Z.eq_dec j mid) as [->|Hne]; [exact Ec|].
           destruct (Z.le_gt_cases j right) as [Hjr|Hjr]; [|apply H; lia].
           apply Hout. left. pose proof (Hasc mid j ltac:(lia) ltac:(lia)). lia.
  - exists result. split; [reflexivity|].
    destruct Hres as [[-> H]|[H1 H2]]; [left | right; split; [lia | exact H2]].
    split; [reflexivity|]. intros j Hj.
    destruct (Z.le_gt_cases j right) as [Hjr|Hjr]; [|apply H; lia].
    apply Hout. right. apply Hbelow. lia.
Qed.

Lemma findBlockContaining_ok : forall bs x, engine_ok bs ->
  exists r, findBlockContaining bs x = Ok r
    /\ ((r = -1 /\ forall j, 0 <= j < Zlength bs ->
                   contains (nth (Z.to_nat j) bs new_block) x = false)
        \/ (0 <= r < Zlength bs /\ contains (nth (Z.to_nat r) bs new_block) x = true)).
Proof.
  intros bs x Hok. destruct bs as [|a r] eqn:Eb.
  - exists (-1). split; [reflexivity|]. left. split; [reflexivity|].
    intros j Hj. rewrite Zlength_nil in Hj. lia.
  - rewrite <- Eb in *. assert (Hfb : findBlockContaining bs x
      = find_loop (S (length bs)) bs x 0 (Zlength bs - 1) (-1)) by (subst bs; reflexivity).
    rewrite Hfb. pose proof (Zlength_correct bs) as HN.
    apply find_loop_spec; [exact Hok | lia | lia | lia | lia | | |].
    + intros j Hj. lia.
    + intros j Hj. lia.
    + left. split; [reflexivity|]. intros j Hj. lia.
Qed.

(** At most one block of a well-formed engine has [x] in its range. *)
Lemma contains_unique : forall bs x i j, engine_ok bs ->
  0 <= i < Zlength bs -> 0 <= j < Zlength bs ->
  contains (nth (Z.to_nat i) bs new_block) x = true ->
  contains (nth (Z.to_nat j) bs new_block) x = true -> i = j.
Proof.
  intros bs x i j Hok Hi Hj Ci Cj. apply contains_range in Ci, Cj.
  rewrite Zlength_correct in Hi, Hj.
  destruct (Z.lt_trichotomy i j) as [Hlt|[Heq|Hlt]]; [exfalso| exact Heq |exfalso].
  - pose proof (blocks_ascending bs (Z.to_nat i) (Z.to_nat j) Hok ltac:(lia) ltac:(lia)). lia.
  - pose proof (blocks_ascending bs (Z.to_nat j) (Z.to_nat i) Hok ltac:(lia) ltac:(lia)). lia.
Qed.

Lemma reachable_engine_0_4096 : reachable engine_0_4096.
Proof.
  apply (reach_build (iota_Z 0 (Z.to_nat 4097)) (iota_Z 0 (Z.to_nat 4097))).
  vm_compute. reflexivity.
Qed.

(** ** Extra properties: search and lookup *)

Lemma search_sorted_ok : forall avx2 d x b,
  StronglySorted Z.lt d -> Zlength d <= MAX_VECTOR_SIZE ->
  search avx2 d x = Ok b -> (b = true <-> In x d).
Proof.
  intros avx2 d x b Hss Hd H.
  pose proof (StronglySorted_sorted_at d Hss) as Hs.
  destruct d as [|a r] eqn:Ed.
  { injection H as <-. split; [discriminate | intros []]. }
  rewrite <- Ed in *.
  assert (Hpos : 0 < Zlength d) by (subst d; rewrite Zlength_correct; simpl length; lia).
  assert (Hsr : search avx2 d x =
    (r0 <- interp_stage 3 d x 0 (sz (Zlength d - 1)) ;;
     match r0 with
     | Return b => Ok b
     | Continue low high =>
         w <- (if avx2 then simd_stage (search_fuel d) d x low high else Ok (low, high)) ;;
         scalar_stage (search_fuel d) d x (fst w) (snd w)
     end)) by (subst d; reflexivity).
  rewrite Hsr in H. clear Hsr. rewrite <- inw_full.
  rewrite (sz_id (Zlength d - 1)) in H by zlia.
  destruct (interp_stage 3 d x 0 (Zlength d - 1)) as [r0|] eqn:E1; cbn [bind] in H;
    [|discriminate].
  destruct (interp_stage_spec 3 d x 0 (Zlength d - 1) r0 Hs ltac:(lia) ltac:(lia)
              ltac:(zlia) E1) as [[-> Hw]|[l [h [-> [Hlh [Hh Hiff]]]]]].
  { injection H as <-. tauto. }
  rewrite Hiff.
  assert (Hfuel : Z.of_nat (search_fuel d) = Zlength d + 2).
  { unfold search_fuel. rewrite Zlength_correct. lia. }
  destruct avx2.
  - destruct (simd_spec d x Hs ltac:(zlia) (search_fuel d) l h Hlh Hh ltac:(lia))
      as [l' [h' [Hrun [Hl' [Hh' [Hiff' _]]]]]].
    rewrite Hrun in H. cbn [bind fst snd] in H. rewrite Hiff'.
    exact (scalar_correct d x (search_fuel d) l' h' b Hs Hd ltac:(lia) ltac:(lia) ltac:(lia)
             ltac:(lia) H).
  - cbn [bind fst snd] in H.
    exact (scalar_correct d x (search_fuel d) l h b Hs Hd ltac:(lia) ltac:(lia) ltac:(lia)
             ltac:(lia) H).
Qed.

(** [Block::search] on a strictly ascending vector: whenever it returns
    (no undefined behaviour on the way), its answer is right. *)
Theorem search_sorted_correct : forall avx2 d x b,
  StronglySorted Z.lt d -> Zlength d <= MAX_VECTOR_SIZE ->
  search avx2 d x = Ok b -> (b = true <-> In x d).
Proof. exact search_sorted_ok. Qed.

Lemma search_sorted_correct_witness :
  StronglySorted Z.lt [1; 3; 5; 9] /\ Zlength [1; 3; 5; 9] <= MAX_VECTOR_SIZE
  /\ search true [1; 3; 5; 9] 5 = Ok true /\ (true = true <-> In 5 [1; 3; 5; 9]).
Proof.
  assert (H1 : StronglySorted Z.lt [1; 3; 5; 9]) by (repeat constructor).
  assert (H2 : Zlength [1; 3; 5; 9] <= MAX_VECTOR_SIZE)
    by (apply Z.leb_le; vm_compute; reflexivity).
  assert (H3 : search true [1; 3; 5; 9] 5 = Ok true) by (vm_compute; reflexivity).
  split; [exact H1|]. split; [exact H2|]. split; [exact H3|].
  exact (search_sorted_correct true _ 5 true H1 H2 H3).
Defined.

(** [findBlockContaining] on any engine obtained by [build] and [insert]s
    never fails: it returns [-1] when no block's [[minVal, maxVal]] holds
    [x], and otherwise the index of the only block that does. *)
Theorem findBlockContaining_reachable : forall bs x, reachable bs ->
  exists r, findBlockContaining bs x = Ok r
    /\ ((r = -1 /\ forall b, In b bs -> contains b x = false)
        \/ (0 <= r < Zlength bs
            /\ forall j, 0 <= j < Zlength bs ->
                 (contains (nth (Z.to_nat j) bs new_block) x = true <-> j = r))).
Proof.
  intros bs x Hr. pose proof (reachable_engine_ok bs Hr) as Hok.
  destruct (findBlockContaining_ok bs x Hok) as [r [Hrun Hres]].
  exists r. split; [exact Hrun|].
  destruct Hres as [[-> H]|[Hrr Hc]]; [left | right].
  - split; [reflexivity|]. intros b Hb. destruct (In_nth bs b new_block Hb) as [n [Hn <-]].
    specialize (H (Z.of_nat n)). rewrite Nat2Z.id in H. apply H.
    rewrite Zlength_correct. lia.
  - split; [exact Hrr|]. intros j Hj. split.
    + intros Cj. exact (contains_unique bs x j r Hok Hj Hrr Cj Hc).
    + intros ->. exact Hc.
Qed.

Lemma findBlockContaining_reachable_witness :
  reachable engine_0_4096 /\ findBlockContaining engine_0_4096 4096 = Ok 1
  /\ exists r, findBlockContaining engine_0_4096 4096 = Ok r
    /\ ((r = -1 /\ forall b, In b engine_0_4096 -> contains b 4096 = false)
        \/ (0 <= r < Zlength engine_0_4096
            /\ forall j, 0 <= j < Zlength engine_0_4096 ->
                 (contains (nth (Z.to_nat j) engine_0_4096 new_block) 4096 = true
                  <-> j = r))).
Proof.
  split; [exact reachable_engine_0_4096|].
  split; [vm_compute; reflexivity|].
  exact (findBlockContaining_reachable engine_0_4096 4096 reachable_engine_0_4096).
Defined.

Lemma query_ok_correct : forall avx2 bs x b, engine_ok bs ->
  query avx2 bs x = Ok b -> (b = true <-> present bs x).
Proof.
  intros avx2 bs x b Hok H.
  pose proof (Zlength_correct bs) as HN.
  destruct (findBlockContaining_ok bs x Hok) as [r [Hrun Hres]].
  unfold query in H. rewrite Hrun in H. cbn [bind] in H.
  destruct (Z.leb_spec 0 r) as [H0|H0].
  - destruct Hres as [[-> _]|[Hrr Hc]]; [lia|].
    unfold block_at in H.
    replace ((0 <=? r) && (r <? Zlength bs)) with true in H
      by (symmetry; apply andb_true_intro; split; [apply Z.leb_le | apply Z.ltb_lt]; lia).
    cbn [bind] in H.
    pose proof Hok as [Hb Hs]. pose proof (blocks_sorted _ Hs) as Hs'.
    rewrite Forall_forall in Hb, Hs'.
    assert (Hin : In (nth (Z.to_nat r) bs new_block) bs) by (apply nth_In; lia).
    destruct (Hb _ Hin) as [Hne [Hmin [Hmax Hlen]]].
    assert (Hv : MAX_BLOCK_SIZE <= MAX_VECTOR_SIZE)
      by (apply Z.leb_le; vm_compute; reflexivity).
    rewrite (search_sorted_ok avx2 _ x b (Hs' _ Hin) ltac:(lia) H).
    split; [intros Hx; exists (nth (Z.to_nat r) bs new_block); split; assumption|].
    intros [c [Hc' Hx]]. destruct (In_nth bs c new_block Hc') as [n [Hn <-]].
    assert (Cn : contains (nth n bs new_block) x = true)
      by (apply contains_in_block; [apply Hb | apply Hs' | exact Hx]; exact Hc').
    rewrite <- (Nat2Z.id n) in Cn.
    pose proof (contains_unique bs x (Z.of_nat n) r Hok ltac:(lia) Hrr Cn Hc) as E.
    rewrite <- E, Nat2Z.id. exact Hx.
  - injection H as <-. split; [discriminate|]. intros [c [Hc' Hx]].
    destruct Hres as [[-> H]|[Hrr _]]; [|lia].
    destruct (In_nth bs c new_block Hc') as [n [Hn <-]].
    specialize (H (Z.of_nat n) ltac:(lia)). rewrite Nat2Z.id in H.
    destruct Hok as [Hb Hs]. pose proof (blocks_sorted _ Hs) as Hs'.
    rewrite Forall_forall in Hb, Hs'.
    rewrite (contains_in_block _ x (Hb _ Hc') (Hs' _ Hc') Hx) in H. discriminate H.
Qed.

(** [query] on any engine obtained by [build] and [insert]s: whenever it
    returns (no undefined behaviour in [Block::search]), it says exactly
    whether [x] is stored. *)
Theorem query_reachable_correct : forall avx2 bs x b, reachable bs ->
  query avx2 bs x = Ok b -> (b = true <-> present bs x).
Proof.
  intros avx2 bs x b Hr. exact (query_ok_correct avx2 bs x b (reachable_engine_ok bs Hr)).
Qed.

Lemma query_reachable_correct_witness :
  reachable engine_0_4096 /\ query true engine_0_4096 4096 = Ok true
  /\ (true = true <-> present engine_0_4096 4096).
Proof.
  assert (H : query true engine_0_4096 4096 = Ok true) by (vm_compute; reflexivity).
  split; [exact reachable_engine_0_4096|]. split; [exact H|].
  exact (query_reachable_correct true engine_0_4096 4096 true reachable_engine_0_4096 H).
Defined.

Lemma reachable_engine_1_3_5 : reachable engine_1_3_5.
Proof. apply (reach_build [5; 3; 1] [1; 3; 5]). vm_compute. reflexivity. Qed.

(** [query] on an engine obtained by [build] and [insert]s returns [false],
    without running [Block::search], when [x] lies outside every block's
    [[minVal, maxVal]]. *)
Theorem query_outside_ranges : forall avx2 bs x, reachable bs ->
  (forall b, In b bs -> x < minVal b \/ maxVal b < x) ->
  query avx2 bs x = Ok false.
Proof.
  intros avx2 bs x Hr Hout. pose proof (reachable_engine_ok bs Hr) as Hok.
  destruct (findBlockContaining_ok bs x Hok) as [r [Hrun Hres]].
  unfold query. rewrite Hrun. cbn [bind].
  destruct Hres as [[-> _]|[Hrr Hc]]; [reflexivity|].
  exfalso. apply contains_range in Hc.
  assert (Hin : In (nth (Z.to_nat r) bs new_block) bs)
    by (apply nth_In; rewrite Zlength_correct in Hrr; lia).
  specialize (Hout _ Hin). lia.
Qed.

Lemma query_outside_ranges_witness :
  reachable engine_1_3_5
  /\ (forall b, In b engine_1_3_5 -> 7 < minVal b \/ maxVal b < 7)
  /\ query true engine_1_3_5 7 = Ok false.
Proof.
  assert (Hout : forall b, In b engine_1_3_5 -> 7 < minVal b \/ maxVal b < 7)
    by (intros b [<-|[]]; simpl; lia).
  split; [exact reachable_engine_1_3_5|]. split; [exact Hout|].
  exact (query_outside_ranges true engine_1_3_5 7 reachable_engine_1_3_5 Hout).
Defined.

(** On any block vector, well formed or not, [query] never reports a value
    that no block stores. *)
Theorem query_true_sound : forall avx2 bs x, query avx2 bs x = Ok true -> present bs x.
Proof.
  intros avx2 bs x H. unfold query in H.
  destruct (findBlockContaining bs x) as [r|]; cbn [bind] in H; [|discriminate].
  destruct (0 <=? r); [|discriminate].
  unfold block_at in H. destruct ((0 <=? r) && (r <? Zlength bs)) eqn:E;
    cbn [bind] in H; [|discriminate].
  apply andb_true_iff in E as [E1 E2]. apply Z.leb_le in E1. apply Z.ltb_lt in E2.
  exists (nth (Z.to_nat r) bs new_block). split.
  - apply nth_In. rewrite Zlength_correct in E2. lia.
  - exact (search_true avx2 _ x H).
Qed.

Lemma query_true_sound_witness :
  query true engine_1_3_5 3 = Ok true /\ present engine_1_3_5 3.
Proof.
  assert (H : query true engine_1_3_5 3 = Ok true) by (vm_compute; reflexivity).
  split; [exact H|]. exact (query_true_sound true engine_1_3_5 3 H).
Defined.

(** ** Elements of the engine under [insert] *)

Lemma Zlength_app' : forall (l r : list Z), Zlength (l ++ r) = Zlength l + Zlength r.
Proof. intros l r. rewrite !Zlength_correct, length_app. lia. Qed.

Lemma total_concat : forall bs, getTotalElements bs = Zlength (concat (map data bs)).
Proof.
  unfold getTotalElements. intros bs.
  assert (H : forall a, fold_left (fun t b => t + Zlength (data b)) bs a
                        = a + Zlength (concat (map data bs))).
  { induction bs as [|b r IH]; intros a; simpl; [rewrite Zlength_nil; lia|].
    rewrite IH, Zlength_app'. lia. }
  rewrite H. lia.
Qed.

Lemma split_concat : forall bs idx,
  concat (map data (splitBlockIfNeeded bs idx)) = concat (map data bs)
  /\ (length (splitBlockIfNeeded bs idx) = length bs
      \/ length (splitBlockIfNeeded bs idx) = S (length bs)).
Proof.
  intros bs idx. unfold splitBlockIfNeeded.
  destruct ((idx <? 0) || (Zlength bs <=? idx)) eqn:Eg; [auto|].
  apply orb_false_iff in Eg as [E1 E2]. apply Z.ltb_ge in E1. apply Z.leb_gt in E2.
  cbv zeta. destruct (Zlength (data (nth (Z.to_nat idx) bs new_block)) <=? MAX_BLOCK_SIZE);
    [auto|].
  rewrite Zlength_correct in E2.
  pose proof (nth_split bs (Z.to_nat idx) new_block ltac:(lia)) as Hbs.
  set (b := nth (Z.to_nat idx) bs new_block) in *.
  set (m := Z.to_nat (Zlength (data b) / 2)).
  set (pre := firstn (Z.to_nat idx) bs) in *.
  set (post := skipn (S (Z.to_nat idx)) bs) in *.
  split.
  - replace (concat (map data bs)) with (concat (map data (pre ++ b :: post)))
      by (rewrite <- Hbs; reflexivity).
    rewrite !map_app, !concat_app. cbn [map concat data with_bounds].
    rewrite (app_assoc (firstn m (data b))), firstn_skipn. reflexivity.
  - right. replace (length bs) with (length (pre ++ b :: post))
      by (rewrite <- Hbs; reflexivity).
    rewrite !length_app. simpl. lia.
Qed.

Lemma insert_elems : forall bs x, engine_ok bs ->
  (forall y, In y (concat (map data (insert bs x)))
             <-> y = x \/ In y (concat (map data bs)))
  /\ (~ In x (concat (map data bs)) ->
      Zlength (concat (map data (insert bs x))) = Zlength (concat (map data bs)) + 1).
Proof.
  intros bs x Hok. destruct bs as [|a r].
  - simpl. split; [|intros _; reflexivity].
    intros y. split; [intros [<-|[]] | intros [->|[]]]; left; reflexivity.
  - destruct (insert_decomp (a :: r) x Hok ltac:(discriminate))
      as [pre [b [post [Hbs [Hins [Hlo Hhi]]]]]].
    rewrite Hins, (proj1 (split_concat _ _)). rewrite Hbs.
    destruct Hok as [Hbo Hs]. rewrite Hbs in Hbo, Hs.
    apply Forall_app in Hbo as [_ Hbo]. inversion Hbo as [|? ? Hb _]; subst.
    assert (Hsb : StronglySorted Z.lt (data b)).
    { rewrite map_app, concat_app in Hs. cbn [map concat] in Hs.
      apply SS_app_inv in Hs as [_ [Hs _]]. apply SS_app_inv in Hs as [Hs _]. exact Hs. }
    rewrite !map_app, !concat_app. cbn [map concat].
    destruct (block_insert_spec b x Hsb) as [[Hx ->]|[_ [l [r' [Hd [-> _]]]]]].
    + split.
      * intros y. split; [tauto|]. intros [->|H]; [|exact H].
        apply in_or_app. right. apply in_or_app. left. exact Hx.
      * intros Hn. exfalso. apply Hn. apply in_or_app. right. apply in_or_app. left. exact Hx.
    + cbn [data with_bounds]. rewrite Hd. split.
      * intros y. rewrite !in_app_iff. simpl. split; intros H; intuition subst; auto.
      * intros _. rewrite !Zlength_app', Zlength_cons. lia.
Qed.

(** Every engine obtained by [build] and [insert]s keeps the block
    invariant: each block holds between [1] and [MAX_BLOCK_SIZE] values,
    its [minVal]/[maxVal] are its first/last value, and the values read
    block after block are strictly ascending (hence no value is stored
    twice). *)
Theorem reachable_invariant : forall bs, reachable bs ->
  Forall (fun b => 1 <= Zlength (data b) <= MAX_BLOCK_SIZE
                   /\ minVal b = hd 0 (data b) /\ maxVal b = last (data b) 0) bs
  /\ StronglySorted Z.lt (concat (map data bs)).
Proof.
  intros bs Hr. destruct (reachable_engine_ok bs Hr) as [Hb Hs].
  split; [|exact Hs]. eapply Forall_impl; [|exact Hb].
  intros b [Hne [Hmin [Hmax Hlen]]]. split; [|split; assumption].
  split; [|exact Hlen]. destruct (data b) as [|h t]; [contradiction|].
  rewrite Zlength_cons. pose proof (Zlength_correct t). lia.
Qed.

Lemma reachable_invariant_witness :
  reachable engine_1_3_5
  /\ Forall (fun b => 1 <= Zlength (data b) <= MAX_BLOCK_SIZE
                      /\ minVal b = hd 0 (data b) /\ maxVal b = last (data b) 0) engine_1_3_5
  /\ StronglySorted Z.lt (concat (map data engine_1_3_5)).
Proof.
  split; [exact reachable_engine_1_3_5|].
  exact (reachable_invariant engine_1_3_5 reachable_engine_1_3_5).
Defined.

(** [insert(x)] on an engine obtained by [build] and [insert]s adds [x]
    and nothing else: afterwards the stored values are the old ones and
    [x]. *)
Theorem insert_present_iff : forall bs x y, reachable bs ->
  present (insert bs x) y <-> y = x \/ present bs y.
Proof.
  intros bs x y Hr. rewrite !present_concat.
  exact (proj1 (insert_elems bs x (reachable_engine_ok bs Hr)) y).
Qed.

Lemma insert_present_iff_witness :
  reachable engine_1_3_5
  /\ (present (insert engine_1_3_5 4) 4 <-> 4 = 4 \/ present engine_1_3_5 4).
Proof.
  split; [exact reachable_engine_1_3_5|].
  exact (insert_present_iff engine_1_3_5 4 4 reachable_engine_1_3_5).
Defined.

(** [getTotalElements] grows by one when [insert] adds a value that was
    not stored. *)
Theorem insert_total_absent : forall bs x, reachable bs -> ~ present bs x ->
  getTotalElements (insert bs x) = getTotalElements bs + 1.
Proof.
  intros bs x Hr Hn. rewrite !total_concat. rewrite present_concat in Hn.
  exact (proj2 (insert_elems bs x (reachable_engine_ok bs Hr)) Hn).
Qed.

Lemma insert_total_absent_witness :
  reachable engine_1_3_5 /\ ~ present engine_1_3_5 4
  /\ getTotalElements (insert engine_1_3_5 4) = getTotalElements engine_1_3_5 + 1.
Proof.
  assert (Hn : ~ present engine_1_3_5 4)
    by (intros [b [[<-|[]] Hx]]; simpl in Hx; lia).
  split; [exact reachable_engine_1_3_5|]. split; [exact Hn|].
  exact (insert_total_absent engine_1_3_5 4 reachable_engine_1_3_5 Hn).
Defined.

(** ** [rangeQuery] on any reachable engine *)

(** Two strictly ascending lists with the same members are equal. *)
Lemma SS_unique : forall (l1 l2 : list Z), StronglySorted Z.lt l1 -> StronglySorted Z.lt l2 ->
  (forall y, In y l1 <-> In y l2) -> l1 = l2.
Proof.
  induction l1 as [|a r1 IH]; intros [|b r2] H1 H2 Hm.
  - reflexivity.
  - exfalso. apply (proj2 (Hm b)). left. reflexivity.
  - exfalso. apply (proj1 (Hm a)). left. reflexivity.
  - assert (Hab : a = b).
    { pose proof (SS_hd_le b r2 a H2 (proj1 (Hm a) (or_introl eq_refl))).
      pose proof (SS_hd_le a r1 b H1 (proj2 (Hm b) (or_introl eq_refl))). lia. }
    subst b. f_equal.
    apply StronglySorted_inv in H1 as [H1 F1]. apply StronglySorted_inv in H2 as [H2 F2].
    rewrite Forall_forall in F1, F2.
    apply IH; [exact H1 | exact H2|]. intros y. split; intros Hy.
    + specialize (F1 y Hy). destruct (proj1 (Hm y) (or_intror Hy)) as [->|H]; [lia | exact H].
    + specialize (F2 y Hy). destruct (proj2 (Hm y) (or_intror Hy)) as [->|H]; [lia | exact H].
Qed.

(** On every engine obtained by [build] and [insert]s, [rangeQuery(low,
    high)] returns the stored values in [[low, high]], each once, in
    ascending order. *)
Theorem rangeQuery_reachable : forall bs low high, reachable bs ->
  StronglySorted Z.lt (rangeQuery bs low high)
  /\ (forall y, In y (rangeQuery bs low high) <-> present bs y /\ low <= y <= high).
Proof.
  intros bs low high Hr. pose proof (reachable_engine_ok bs Hr) as Hok.
  rewrite (rangeQuery_filter bs low high Hok). split.
  - apply SS_filter, (proj2 Hok).
  - intros y. rewrite filter_In, present_concat, andb_true_iff, !Z.leb_le. reflexivity.
Qed.

Lemma rangeQuery_reachable_witness :
  reachable engine_1_3_5
  /\ StronglySorted Z.lt (rangeQuery engine_1_3_5 2 5)
  /\ (forall y, In y (rangeQuery engine_1_3_5 2 5) <-> present engine_1_3_5 y /\ 2 <= y <= 5).
Proof.
  split; [exact reachable_engine_1_3_5|].
  exact (rangeQuery_reachable engine_1_3_5 2 5 reachable_engine_1_3_5).
Defined.

(** Insert/lookup round trip: after [insert(x)] on an engine obtained by
    [build] and [insert]s, [rangeQuery(x, x)] is exactly [[x]]. *)
Theorem rangeQuery_after_insert : forall bs x, reachable bs ->
  rangeQuery (insert bs x) x x = [x].
Proof.
  intros bs x Hr. pose proof (reachable_engine_ok bs Hr) as Hok.
  pose proof (insert_engine_ok bs x Hok) as Hok'.
  destruct (insert_elems bs x Hok) as [Hm _].
  rewrite (rangeQuery_filter _ x x Hok'). apply SS_unique.
  - apply SS_filter, (proj2 Hok').
  - repeat constructor.
  - intros y. rewrite filter_In, andb_true_iff, !Z.leb_le. split.
    + intros [_ Hy]. left. lia.
    + intros [<-|[]]. split; [apply Hm; left; reflexivity | lia].
Qed.

Lemma rangeQuery_after_insert_witness :
  reachable engine_1_3_5 /\ rangeQuery (insert engine_1_3_5 4) 4 4 = [4].
Proof.
  split; [exact reachable_engine_1_3_5|].
  exact (rangeQuery_after_insert engine_1_3_5 4 reachable_engine_1_3_5).
Defined.

(** ** Sizes after [build] *)

Lemma chunk_count : forall bs,
  Forall (fun b => data b <> [] /\ Zlength (data b) <= TARGET_BLOCK_SIZE) bs ->
  (forall j, (S j < length bs)%nat ->
     Zlength (data (nth j bs new_block)) = TARGET_BLOCK_SIZE) ->
  bs <> [] ->
  TARGET_BLOCK_SIZE * (Zlength bs - 1) < Zlength (concat (map data bs))
  <= TARGET_BLOCK_SIZE * Zlength bs.
Proof.
  induction bs as [|b r IH]; intros Hall Hfull Hne; [contradiction|].
  inversion Hall as [|? ? [Hbne Hblen] Hr]; subst.
  cbn [map concat]. rewrite Zlength_app', Zlength_cons.
  assert (Hb1 : 1 <= Zlength (data b)).
  { destruct (data b) as [|h t]; [contradiction|]. rewrite Zlength_cons.
    pose proof (Zlength_correct t). lia. }
  destruct r as [|c r'].
  - cbn [map concat]. rewrite !Zlength_nil. unfold TARGET_BLOCK_SIZE in *. lia.
  - assert (Hb : Zlength (data b) = TARGET_BLOCK_SIZE) by (apply (Hfull O); simpl; lia).
    assert (Hf' : forall j, (S j < length (c :: r'))%nat ->
                    Zlength (data (nth j (c :: r') new_block)) = TARGET_BLOCK_SIZE).
    { intros j Hj. apply (Hfull (S j)). simpl in *. lia. }
    assert (IH' := IH Hr Hf' ltac:(discriminate)).
    unfold TARGET_BLOCK_SIZE in *. lia.
Qed.

(** [build] stores each distinct input value once ([getTotalElements] is
    the number of distinct values) in [ceil(n / TARGET_BLOCK_SIZE)] blocks,
    [n] that number. *)
Theorem build_counts : forall buf, exists d bs,
  build buf = Ok (d, bs)
  /\ getTotalElements bs = Zlength d
  /\ Zlength bs = (Zlength d + TARGET_BLOCK_SIZE - 1) / TARGET_BLOCK_SIZE.
Proof.
  intros buf.
  destruct (build_spec buf) as [d [bs [Hrun [_ [_ [_ [Hcat [Hall Hfull]]]]]]]].
  exists d, bs. split; [exact Hrun|]. rewrite total_concat, Hcat. split; [reflexivity|].
  destruct bs as [|b r].
  - simpl in Hcat. subst d. reflexivity.
  - assert (Hall' : Forall (fun b => data b <> [] /\ Zlength (data b) <= TARGET_BLOCK_SIZE)
                      (b :: r))
      by (eapply Forall_impl; [|exact Hall]; intros c [_ [H1 H2]]; split; assumption).
    pose proof (chunk_count (b :: r) Hall' Hfull ltac:(discriminate)) as Hc.
    rewrite Hcat in Hc. unfold TARGET_BLOCK_SIZE in *.
    Z.div_mod_to_equations. lia.
Qed.

(** [splitBlockIfNeeded(idx)], for any [idx], keeps the element sequence
    read block after block, and adds at most one block. *)
Theorem splitBlockIfNeeded_keeps_elements : forall bs idx,
  concat (map data (splitBlockIfNeeded bs idx)) = concat (map data bs)
  /\ (length (splitBlockIfNeeded bs idx) = length bs
      \/ length (splitBlockIfNeeded bs idx) = S (length bs)).
Proof. exact split_concat. Qed.

(** ** [mergeBlocksIfNeeded] *)

(** On a well-formed engine, [mergeBlocksIfNeeded(idx)], for any [idx],
    never reaches [front()] on an empty vector, leaves a well-formed engine
    with the same element sequence, and either changes nothing or removes
    exactly one block. *)
Theorem mergeBlocksIfNeeded_ok : forall bs idx, engine_ok bs ->
  exists bs', mergeBlocksIfNeeded bs idx = Ok bs'
  /\ engine_ok bs'
  /\ concat (map data bs') = concat (map data bs)
  /\ (bs' = bs \/ S (length bs') = length bs).
Proof.
  intros bs idx [Hall Hs]. unfold mergeBlocksIfNeeded.
  destruct ((idx <? 0) || (Zlength bs - 1 <=? idx)) eqn:Eg.
  { exists bs. split; [reflexivity|]. split; [split; assumption|].
    split; [reflexivity | left; reflexivity]. }
  apply orb_false_iff in Eg as [E1 E2]. apply Z.ltb_ge in E1. apply Z.leb_gt in E2.
  rewrite Zlength_correct in E2.
  set (n := Z.to_nat idx) in *.
  assert (Hn1 : Z.to_nat (idx + 1) = S n) by (subst n; lia).
  assert (Hn2 : Z.to_nat (idx + 2) = S (S n)) by (subst n; lia).
  rewrite Hn1, Hn2.
  assert (Hsk : skipn n bs
                = nth n bs new_block :: nth (S n) bs new_block :: skipn (S (S n)) bs).
  { rewrite (skipn_nth bs n new_block) by lia.
    rewrite (skipn_nth bs (S n) new_block) by lia. reflexivity. }
  assert (Hbs : bs = firstn n bs ++ nth n bs new_block :: nth (S n) bs new_block
                                   :: skipn (S (S n)) bs)
    by (rewrite <- Hsk; symmetry; apply firstn_skipn).
  set (pre := firstn n bs) in *. set (b1 := nth n bs new_block) in *.
  set (b2 := nth (S n) bs new_block) in *. set (post := skipn (S (S n)) bs) in *.
  clearbody pre b1 b2 post. rewrite Hbs in Hall, Hs.
  apply Forall_app in Hall as [Hpre Hrest].
  inversion Hrest as [|? ? Hb1 Hrest2]; subst.
  inversion Hrest2 as [|? ? Hb2 Hpost]; subst.
  destruct (Z.ltb_spec (Zlength (data b1) + Zlength (data b2)) TARGET_BLOCK_SIZE)
    as [Hlt|Hge].
  2:{ exists (pre ++ b1 :: b2 :: post). split; [reflexivity|].
      split; [split; [rewrite Forall_app; auto | exact Hs]|].
      split; [reflexivity | left; reflexivity]. }
  assert (Hne : data b1 ++ data b2 <> []).
  { destruct Hb1 as [Hb1 _]. intros H. apply app_eq_nil in H as [H _]. contradiction. }
  assert (Hcat : concat (map data (pre ++ with_bounds (data b1 ++ data b2) :: post))
                 = concat (map data (pre ++ b1 :: b2 :: post))).
  { rewrite !map_app, !concat_app. cbn [map concat data with_bounds].
    rewrite <- app_assoc. reflexivity. }
  destruct (data b1 ++ data b2) as [|z t] eqn:Ed; [contradiction|].
  rewrite <- Ed in Hne, Hcat |- *.
  exists (pre ++ with_bounds (data b1 ++ data b2) :: post).
  split; [reflexivity|]. split; [split|].
  - apply Forall_app. split; [exact Hpre|]. constructor; [|exact Hpost].
    unfold block_ok. cbn [data minVal maxVal with_bounds].
    split; [exact Hne|]. split; [reflexivity|]. split; [reflexivity|].
    rewrite Zlength_app'. unfold TARGET_BLOCK_SIZE, MAX_BLOCK_SIZE in *. lia.
  - rewrite Hcat. exact Hs.
  - split; [exact Hcat|]. right. rewrite !length_app. simpl. lia.
Qed.

Lemma engine_1_3_5_9_ok : engine_ok engine_1_3_5_9.
Proof.
  split.
  - repeat constructor; unfold MAX_BLOCK_SIZE; simpl; try discriminate;
      apply Z.leb_le; reflexivity.
  - simpl. repeat constructor.
Qed.

Lemma mergeBlocksIfNeeded_ok_witness :
  engine_ok engine_1_3_5_9
  /\ exists bs', mergeBlocksIfNeeded engine_1_3_5_9 0 = Ok bs'
     /\ engine_ok bs'
     /\ concat (map data bs') = concat (map data engine_1_3_5_9)
     /\ (bs' = engine_1_3_5_9 \/ S (length bs') = length engine_1_3_5_9).
Proof.
  split; [exact engine_1_3_5_9_ok|].
  exact (mergeBlocksIfNeeded_ok engine_1_3_5_9 0 engine_1_3_5_9_ok).
Defined.

(** ** [Block::insert] and [Block::remove] *)

Lemma SS_app : forall (l r : list Z), StronglySorted Z.lt l -> StronglySorted Z.lt r ->
  (forall a b, In a l -> In b r -> a < b) -> StronglySorted Z.lt (l ++ r).
Proof.
  induction l as [|a l IH]; intros r Hl Hr H; simpl; [exact Hr|].
  apply StronglySorted_inv in Hl as [Hl Hf]. constructor.
  - apply IH; [exact Hl | exact Hr|]. intros x y Hx Hy. apply H; [right|]; assumption.
  - apply Forall_app. split; [exact Hf|]. rewrite Forall_forall. intros y Hy.
    apply H; [left; reflexivity | exact Hy].
Qed.

Lemma SS_remove_mid : forall (l r : list Z) x, StronglySorted Z.lt (l ++ x :: r) ->
  StronglySorted Z.lt (l ++ r)
  /\ (forall y, In y (l ++ r) <-> In y (l ++ x :: r) /\ y <> x).
Proof.
  intros l r x H. destruct (SS_app_inv _ _ H) as [Hl [Hxr Hlt]].
  apply StronglySorted_inv in Hxr as [Hr Hf]. rewrite Forall_forall in Hf.
  split.
  - apply SS_app; [exact Hl | exact Hr|]. intros a b Ha Hb.
    apply Hlt; [exact Ha | right; exact Hb].
  - intros y. rewrite !in_app_iff. simpl. split.
    + intros [Hy|Hy]; split.
      * left. exact Hy.
      * intros ->. specialize (Hlt x x Hy (or_introl eq_refl)). lia.
      * right. right. exact Hy.
      * intros ->. specialize (Hf x Hy). lia.
    + intros [[Hy|[Hy|Hy]] Hne]; [left; exact Hy | congruence | right; exact Hy].
Qed.

Lemma block_eta : forall b, minVal b = hd 0 (data b) -> maxVal b = last (data b) 0 ->
  with_bounds (data b) = b.
Proof. intros [m M d]; simpl. intros -> ->. reflexivity. Qed.

(** What [Block::remove] does on a sorted block: either [x] sits between
    two parts [l] and [r] and the block keeps [l ++ r] (with its old
    bounds when that is empty), or [x] is absent and nothing changes. *)
Lemma block_remove_cases : forall b x, StronglySorted Z.lt (data b) ->
  (exists l r, data b = l ++ x :: r
     /\ block_remove b x = (true, match l ++ r with
                                  | [] => mkBlock (minVal b) (maxVal b) []
                                  | d => with_bounds d
                                  end))
  \/ (~ In x (data b) /\ block_remove b x = (false, b)).
Proof.
  intros b x Hs. unfold block_remove.
  set (d := data b) in *. set (i := lower_bound d x).
  assert (Hl : Forall (fun e => e < x) (firstn i d)).
  { eapply Forall_impl; [|apply (pp_prefix (fun e => e <? x) d)].
    simpl. intros e He. apply Z.ltb_lt, He. }
  assert (Hr : Forall (fun e => x <= e) (skipn i d)).
  { subst i. rewrite skipn_lower_bound by exact Hs. rewrite Forall_forall.
    intros e He. apply filter_In in He. apply Z.leb_le, He. }
  assert (Hsr : StronglySorted Z.lt (skipn i d)).
  { subst i. rewrite skipn_lower_bound by exact Hs. apply SS_filter, Hs. }
  rewrite Forall_forall in Hl.
  destruct (nth_error d i) as [y|] eqn:Ey.
  - pose proof (nth_error_skipn d i y Ey) as Hsk.
    destruct (Z.eqb_spec y x) as [->|Hne].
    + left. exists (firstn i d), (skipn (S i) d).
      split; [|destruct (firstn i d ++ skipn (S i) d); reflexivity].
      rewrite <- Hsk. symmetry. apply firstn_skipn.
    + right. split; [|reflexivity]. intros Hx.
      rewrite <- (firstn_skipn i d) in Hx. apply in_app_or in Hx as [Hx|Hx].
      * specialize (Hl x Hx). lia.
      * rewrite Hsk in Hx, Hr, Hsr. destruct Hx as [Hx|Hx]; [congruence|].
        inversion Hr; subst.
        apply StronglySorted_inv in Hsr as [_ Hf]. rewrite Forall_forall in Hf.
        specialize (Hf x Hx). lia.
  - right. split; [|reflexivity]. apply nth_error_None in Ey. intros Hx.
    rewrite <- (firstn_skipn i d), (skipn_all2 d Ey), app_nil_r in Hx.
    specialize (Hl x Hx). lia.
Qed.

(** [Block::insert] of [x] into a block whose data is [l ++ r], [x] between
    the two. *)
Lemma insert_into_removed : forall l x r c, StronglySorted Z.lt (l ++ x :: r) ->
  data c = l ++ r -> block_insert c x = with_bounds (l ++ x :: r).
Proof.
  intros l x r c Hs Hc. destruct (SS_remove_mid l r x Hs) as [Hs' Hm].
  assert (Hsc : StronglySorted Z.lt (data c)) by (rewrite Hc; exact Hs').
  destruct (block_insert_spec c x Hsc) as [[Hin _]|[_ [l' [r' [Hd' [Hbi [Hl' Hr']]]]]]].
  - exfalso. rewrite Hc in Hin. apply (proj2 (proj1 (Hm x) Hin)). reflexivity.
  - rewrite Hbi. f_equal. apply SS_unique; [|exact Hs|].
    + apply SS_insert_mid; [rewrite <- Hd'; exact Hsc | exact Hl' | exact Hr'].
    + intros y. specialize (Hm y). rewrite Hc in Hd'. rewrite Hd' in Hm.
      rewrite !in_app_iff in Hm |- *. simpl in Hm |- *.
      destruct (Z.eq_dec y x) as [->|Hne].
      * split; intros _; right; left; reflexivity.
      * assert (Hne' : x <> y) by congruence. tauto.
Qed.

(** [Block::remove] of [x] from a sorted block whose data is
    [l ++ x :: r]. *)
Lemma remove_from_inserted : forall l x r c, StronglySorted Z.lt (l ++ x :: r) ->
  data c = l ++ x :: r ->
  block_remove c x = (true, match l ++ r with
                            | [] => mkBlock (minVal c) (maxVal c) []
                            | d => with_bounds d
                            end).
Proof.
  intros l x r c Hs Hc.
  assert (Hsc : StronglySorted Z.lt (data c)) by (rewrite Hc; exact Hs).
  destruct (block_remove_cases c x Hsc) as [[l2 [r2 [Hd2 Hrm]]]|[Hn _]].
  - rewrite Hrm. replace (l2 ++ r2) with (l ++ r); [reflexivity|].
    destruct (SS_remove_mid l r x Hs) as [Hs1 Hm1].
    rewrite Hc in Hd2. rewrite Hd2 in Hs.
    destruct (SS_remove_mid l2 r2 x Hs) as [Hs2 Hm2].
    apply SS_unique; [exact Hs1 | exact Hs2|]. intros y.
    rewrite Hm1, Hm2, Hd2. reflexivity.
  - exfalso. apply Hn. rewrite Hc. apply in_or_app. right. left. reflexivity.
Qed.

(** [Block::insert] on a sorted block with consistent bounds keeps it
    sorted with consistent bounds, adds exactly [x], leaves the block as it
    is when [x] is already there and grows it by one otherwise. *)
Theorem block_insert_sorted : forall b x, StronglySorted Z.lt (data b) ->
  minVal b = hd 0 (data b) -> maxVal b = last (data b) 0 ->
  StronglySorted Z.lt (data (block_insert b x))
  /\ (forall y, In y (data (block_insert b x)) <-> y = x \/ In y (data b))
  /\ minVal (block_insert b x) = hd 0 (data (block_insert b x))
  /\ maxVal (block_insert b x) = last (data (block_insert b x)) 0
  /\ (In x (data b) -> block_insert b x = b)
  /\ (~ In x (data b) -> Zlength (data (block_insert b x)) = Zlength (data b) + 1).
Proof.
  intros b x Hs Hmin Hmax.
  destruct (block_insert_spec b x Hs) as [[Hin ->]|[Hn [l [r [Hd [-> [Hl Hr]]]]]]].
  - split; [exact Hs|]. split.
    + intros y. split; [intros Hy; right; exact Hy|]. intros [->|Hy]; assumption.
    + repeat split; try assumption. intros Hn. contradiction.
  - cbn [data minVal maxVal with_bounds]. rewrite Hd in Hs |- *.
    split; [apply SS_insert_mid; assumption|]. split.
    + intros y. rewrite !in_app_iff. simpl. intuition subst; auto.
    + split; [reflexivity|]. split; [reflexivity|].
      split; [intros Hx; rewrite <- Hd in Hx; contradiction|]. intros _.
      rewrite !Zlength_app', Zlength_cons. lia.
Qed.

Lemma block_insert_sorted_witness :
  StronglySorted Z.lt (data block_1_3_5)
  /\ minVal block_1_3_5 = hd 0 (data block_1_3_5)
  /\ maxVal block_1_3_5 = last (data block_1_3_5) 0
  /\ StronglySorted Z.lt (data (block_insert block_1_3_5 4))
  /\ (forall y, In y (data (block_insert block_1_3_5 4)) <-> y = 4 \/ In y (data block_1_3_5))
  /\ minVal (block_insert block_1_3_5 4) = hd 0 (data (block_insert block_1_3_5 4))
  /\ maxVal (block_insert block_1_3_5 4) = last (data (block_insert block_1_3_5 4)) 0
  /\ (In 4 (data block_1_3_5) -> block_insert block_1_3_5 4 = block_1_3_5)
  /\ (~ In 4 (data block_1_3_5) ->
      Zlength (data (block_insert block_1_3_5 4)) = Zlength (data block_1_3_5) + 1).
Proof.
  assert (H1 : StronglySorted Z.lt (data block_1_3_5)) by (simpl; repeat constructor).
  assert (H2 : minVal block_1_3_5 = hd 0 (data block_1_3_5)) by reflexivity.
  assert (H3 : maxVal block_1_3_5 = last (data block_1_3_5) 0) by reflexivity.
  split; [exact H1|]. split; [exact H2|]. split; [exact H3|].
  exact (block_insert_sorted block_1_3_5 4 H1 H2 H3).
Defined.

(** [Block::remove] on a sorted block: it reports whether [x] was there,
    takes out exactly [x], keeps the data sorted, changes nothing when it
    reports [false], keeps consistent bounds while data remain, and leaves
    [minVal] and [maxVal] as they were when the block ends up empty. *)
Theorem block_remove_spec : forall b x found b', StronglySorted Z.lt (data b) ->
  block_remove b x = (found, b') ->
  (found = true <-> In x (data b))
  /\ StronglySorted Z.lt (data b')
  /\ (forall y, In y (data b') <-> In y (data b) /\ y <> x)
  /\ (found = false -> b' = b)
  /\ (data b' <> [] -> minVal b = hd 0 (data b) -> maxVal b = last (data b) 0 ->
      minVal b' = hd 0 (data b') /\ maxVal b' = last (data b') 0)
  /\ (data b' = [] -> minVal b' = minVal b /\ maxVal b' = maxVal b).
Proof.
  intros b x found b' Hs Hrm.
  destruct (block_remove_cases b x Hs) as [[l [r [Hd Hrm']]]|[Hn Hrm']];
    rewrite Hrm' in Hrm; injection Hrm as <- <-.
  - assert (Hin : In x (data b)) by (rewrite Hd; apply in_or_app; right; left; reflexivity).
    rewrite Hd in Hs. destruct (SS_remove_mid l r x Hs) as [Hs' Hm]. rewrite <- Hd in Hm.
    destruct (l ++ r) as [|z t] eqn:E; cbn [data minVal maxVal with_bounds].
    + split; [split; [intros _; exact Hin | reflexivity]|].
      split; [constructor|]. split; [exact Hm|].
      split; [discriminate|]. split; [intros H; contradiction|].
      intros _. split; reflexivity.
    + split; [split; [intros _; exact Hin | reflexivity]|].
      split; [exact Hs'|]. split; [exact Hm|].
      split; [discriminate|]. split; [intros _ _ _; split; reflexivity|].
      intros H; discriminate.
  - split; [split; [discriminate | intros Hx; contradiction]|].
    split; [exact Hs|]. split.
    + intros y. split; [|intros [Hy _]; exact Hy]. intros Hy. split; [exact Hy|].
      intros ->. contradiction.
    + split; [reflexivity|]. split; [intros _ H1 H2; split; assumption|].
      intros _. split; reflexivity.
Qed.

Lemma block_remove_spec_witness :
  StronglySorted Z.lt (data block_1_3_5)
  /\ block_remove block_1_3_5 3 = (true, mkBlock 1 5 [1; 5])
  /\ (true = true <-> In 3 (data block_1_3_5))
  /\ StronglySorted Z.lt (data (mkBlock 1 5 [1; 5]))
  /\ (forall y, In y (data (mkBlock 1 5 [1; 5])) <-> In y (data block_1_3_5) /\ y <> 3)
  /\ (true = false -> mkBlock 1 5 [1; 5] = block_1_3_5)
  /\ (data (mkBlock 1 5 [1; 5]) <> [] -> minVal block_1_3_5 = hd 0 (data block_1_3_5) ->
      maxVal block_1_3_5 = last (data block_1_3_5) 0 ->
      minVal (mkBlock 1 5 [1; 5]) = hd 0 (data (mkBlock 1 5 [1; 5]))
      /\ maxVal (mkBlock 1 5 [1; 5]) = last (data (mkBlock 1 5 [1; 5])) 0)
  /\ (data (mkBlock 1 5 [1; 5]) = [] ->
      minVal (mkBlock 1 5 [1; 5]) = minVal block_1_3_5
      /\ maxVal (mkBlock 1 5 [1; 5]) = maxVal block_1_3_5).
Proof.
  assert (H1 : StronglySorted Z.lt (data block_1_3_5)) by (simpl; repeat constructor).
  assert (H2 : block_remove block_1_3_5 3 = (true, mkBlock 1 5 [1; 5]))
    by (vm_compute; reflexivity).
  split; [exact H1|]. split; [exact H2|].
  exact (block_remove_spec block_1_3_5 3 true (mkBlock 1 5 [1; 5]) H1 H2).
Defined.

(** Round trip: removing a present [x] from a sorted block with consistent
    bounds and inserting it again gives back the same block (also when the
    removal emptied it). *)
Theorem remove_then_insert : forall b x, StronglySorted Z.lt (data b) ->
  minVal b = hd 0 (data b) -> maxVal b = last (data b) 0 -> In x (data b) ->
  block_insert (snd (block_remove b x)) x = b.
Proof.
  intros b x Hs Hmin Hmax Hin.
  destruct (block_remove_cases b x Hs) as [[l [r [Hd ->]]]|[Hn _]]; [|contradiction].
  simpl snd. rewrite Hd in Hs.
  rewrite (insert_into_removed l x r _ Hs).
  - rewrite <- Hd. apply block_eta; assumption.
  - destruct (l ++ r); reflexivity.
Qed.

Lemma remove_then_insert_witness :
  StronglySorted Z.lt (data block_1_3_5)
  /\ minVal block_1_3_5 = hd 0 (data block_1_3_5)
  /\ maxVal block_1_3_5 = last (data block_1_3_5) 0 /\ In 3 (data block_1_3_5)
  /\ block_insert (snd (block_remove block_1_3_5 3)) 3 = block_1_3_5.
Proof.
  assert (H1 : StronglySorted Z.lt (data block_1_3_5)) by (simpl; repeat constructor).
  assert (H2 : minVal block_1_3_5 = hd 0 (data block_1_3_5)) by reflexivity.
  assert (H3 : maxVal block_1_3_5 = last (data block_1_3_5) 0) by reflexivity.
  assert (H4 : In 3 (data block_1_3_5)) by (simpl; auto).
  split; [exact H1|]. split; [exact H2|]. split; [exact H3|]. split; [exact H4|].
  exact (remove_then_insert block_1_3_5 3 H1 H2 H3 H4).
Defined.

(** Round trip: inserting an absent [x] into a non-empty sorted block with
    consistent bounds and removing it again gives back the same block and
    reports [true]. *)
Theorem insert_then_remove : forall b x, StronglySorted Z.lt (data b) ->
  minVal b = hd 0 (data b) -> maxVal b = last (data b) 0 ->
  data b <> [] -> ~ In x (data b) ->
  block_remove (block_insert b x) x = (true, b).
Proof.
  intros b x Hs Hmin Hmax Hne Hn.
  destruct (block_insert_spec b x Hs) as [[Hin _]|[_ [l [r [Hd [-> [Hl Hr]]]]]]];
    [contradiction|].
  assert (Hs' : StronglySorted Z.lt (l ++ x :: r))
    by (apply SS_insert_mid; [rewrite <- Hd; exact Hs | exact Hl | exact Hr]).
  rewrite (remove_from_inserted l x r (with_bounds (l ++ x :: r)) Hs' eq_refl).
  destruct (l ++ r) as [|z t] eqn:E; [rewrite Hd in Hne; contradiction|].
  rewrite <- Hd, block_eta by assumption. reflexivity.
Qed.

Lemma insert_then_remove_witness :
  StronglySorted Z.lt (data block_1_3_5)
  /\ minVal block_1_3_5 = hd 0 (data block_1_3_5)
  /\ maxVal block_1_3_5 = last (data block_1_3_5) 0
  /\ data block_1_3_5 <> [] /\ ~ In 4 (data block_1_3_5)
  /\ block_remove (block_insert block_1_3_5 4) 4 = (true, block_1_3_5).
Proof.
  assert (H1 : StronglySorted Z.lt (data block_1_3_5)) by (simpl; repeat constructor).
  assert (H2 : minVal block_1_3_5 = hd 0 (data block_1_3_5)) by reflexivity.
  assert (H3 : maxVal block_1_3_5 = last (data block_1_3_5) 0) by reflexivity.
  assert (H4 : data block_1_3_5 <> []) by discriminate.
  assert (H5 : ~ In 4 (data block_1_3_5)) by (simpl; lia).
  split; [exact H1|]. split; [exact H2|]. split; [exact H3|]. split; [exact H4|].
  split; [exact H5|].
  exact (insert_then_remove block_1_3_5 4 H1 H2 H3 H4 H5).
Defined.

(** Round trip: after [insert(x)] on an engine obtained by [build] and
    [insert]s, [query(x)], whenever it returns, returns [true]. *)
Theorem query_after_insert : forall avx2 bs x b, reachable bs ->
  query avx2 (insert bs x) x = Ok b -> b = true.
Proof.
  intros avx2 bs x b Hr H. pose proof (reachable_engine_ok bs Hr) as Hok.
  apply (query_ok_correct avx2 _ x b (insert_engine_ok bs x Hok) H).
  apply present_concat. apply (proj1 (insert_elems bs x Hok)). left. reflexivity.
Qed.

Lemma query_after_insert_witness :
  reachable engine_1_3_5 /\ query true (insert engine_1_3_5 4) 4 = Ok true /\ true = true.
Proof.
  assert (H : query true (insert engine_1_3_5 4) 4 = Ok true) by (vm_compute; reflexivity).
  split; [exact reachable_engine_1_3_5|]. split; [exact H|].
  exact (query_after_insert true engine_1_3_5 4 true reachable_engine_1_3_5 H).
Defined.
